(** * BranchBreakpoints: a shallow embedding of the reconciler and the
      duplicate check, and the properties of the specification checked
      against it.

    Sources embedded here:
    - [src/types.ts]: the JSON value model and the equality predicates;
    - the extension module ([activate], [setBreakpoints],
      [getUpdatedBreakpoints], [getBreakpoint], [clearBranchBreakpoints],
      [getInitialBranchBreakpoints], [getWorkspaceBreakpoints]).

    JavaScript values are modelled by what the code can observe of them:
    - an object is an instance of the host classes [SourceBreakpoint] or
      [FunctionBreakpoint], or a plain record (what a persisted blob
      revives to, and what the host base class [Breakpoint] looks like);
    - a host [Range] has the fields [start] and [end]; a [JsonRange] is a
      two-element array and has neither;
    - an exception is a value of [Result]; code with closure variables
      threads an explicit state. *)

From Stdlib Require Import ZArith Ascii.
From stdpp Require Import base tactics option list strings gmap pretty.

Set Default Proof Using "Type".
Local Open Scope Z_scope.

(** ** Exceptions *)

Inductive Exn : Type :=
| TypeError                (* reading a property of [undefined] *)
| Error (message : string) (* [throw new Error(message)] *).

Inductive Result (A : Type) : Type :=
| Ok (a : A)
| Throw (e : Exn).
Arguments Ok {A} a.
Arguments Throw {A} e.

Definition rbind {A B} (r : Result A) (k : A → Result B) : Result B :=
  match r with
  | Ok a => k a
  | Throw e => Throw e
  end.

Global Instance Result_ret : MRet Result := λ A a, Ok a.
Global Instance Result_bind : MBind Result := λ A B k r, rbind r k.

(** ** Value model ([src/types.ts]) *)

(** [JsonPosition]; a host [Position] has the same two fields. *)
Record JsonPosition := { line : N; character : N }.

(** [JsonRange = [JsonPosition, JsonPosition]]: a two-element array. *)
Definition JsonRange : Type := JsonPosition * JsonPosition.

(** The host class [Range]: an object with [start] and [end]. *)
Record Range := { start : JsonPosition; end_ : JsonPosition }.

(** What [location.range] can hold at run time.  A breakpoint of the host
    carries a [Range]; a stored breakpoint revived from the persisted blob
    carries the array, which is how [getBreakpoint] ([location.range[0]])
    and [toStringRange] ([range[0]]) read it.  Both kinds reach
    [areBreakpointsEqual]: [getUpdatedBreakpoints] compares the breakpoints
    of an event with the entries of [branch.breakpoints]. *)
Inductive RangeValue : Type :=
| RangeObject (r : Range)
| RangeArray (r : JsonRange).

(** [JsonLocation] and the host [Location] both expose [uri.path] and
    [range]; they differ in the shape of [range]. *)
Record LocationValue := { uri_path : string; range : RangeValue }.

(** The fields of the base class [Breakpoint]. *)
Record Attributes := {
  enabled : bool;
  condition : option string;
  hitCondition : option string;
  logMessage : option string
}.

(** [VSCodeBreakpoint = SourceBreakpoint | FunctionBreakpoint | Breakpoint],
    and [JsonBreakpoint extends Breakpoint] with two optional fields.  The
    first two constructors are the instances of the host classes (what
    [instanceof] tells apart); [JsonObject] is every other object: a
    [JsonBreakpoint] with its optional [location] (a [JsonLocation]) and
    [functionName], and, with both undefined, a plain [Breakpoint]. *)
Inductive Breakpoint : Type :=
| SourceBreakpoint (uri : string) (r : Range) (a : Attributes)
| FunctionBreakpoint (functionName : string) (a : Attributes)
| JsonObject (location : option (string * JsonRange))
             (functionName : option string) (a : Attributes).

Record Branch := { name : string; breakpoints : list Breakpoint }.

(** [version] is tested for absence by the loader, hence optional. *)
Record BranchBreakpoints := { version : option string; branch : list Branch }.

Global Instance JsonPosition_eq_dec : EqDecision JsonPosition.
Proof. solve_decision. Defined.
Global Instance Range_eq_dec : EqDecision Range.
Proof. solve_decision. Defined.
Global Instance RangeValue_eq_dec : EqDecision RangeValue.
Proof. solve_decision. Defined.
Global Instance LocationValue_eq_dec : EqDecision LocationValue.
Proof. solve_decision. Defined.
Global Instance Attributes_eq_dec : EqDecision Attributes.
Proof. solve_decision. Defined.
Global Instance Breakpoint_eq_dec : EqDecision Breakpoint.
Proof. solve_decision. Defined.
Global Instance Branch_eq_dec : EqDecision Branch.
Proof. solve_decision. Defined.
Global Instance BranchBreakpoints_eq_dec : EqDecision BranchBreakpoints.
Proof. solve_decision. Defined.

(** Property reads: [breakpoint.location], [breakpoint.functionName] and the
    base-class fields. *)
Definition get_location (b : Breakpoint) : option LocationValue :=
  match b with
  | SourceBreakpoint p r _ => Some {| uri_path := p; range := RangeObject r |}
  | FunctionBreakpoint _ _ => None
  | JsonObject (Some (p, r)) _ _ => Some {| uri_path := p; range := RangeArray r |}
  | JsonObject None _ _ => None
  end.

Definition get_functionName (b : Breakpoint) : option string :=
  match b with
  | SourceBreakpoint _ _ _ => None
  | FunctionBreakpoint f _ => Some f
  | JsonObject _ f _ => f
  end.

Definition attributes (b : Breakpoint) : Attributes :=
  match b with
  | SourceBreakpoint _ _ a | FunctionBreakpoint _ a | JsonObject _ _ a => a
  end.

(** [breakpoint instanceof SourceBreakpoint] and
    [breakpoint instanceof FunctionBreakpoint]. *)
Definition instanceof_SourceBreakpoint (b : Breakpoint) : bool :=
  match b with SourceBreakpoint _ _ _ => true | _ => false end.

Definition instanceof_FunctionBreakpoint (b : Breakpoint) : bool :=
  match b with FunctionBreakpoint _ _ => true | _ => false end.

(** [toStringPosition]: the template [(line, character)]. *)
Definition toStringPosition (position : JsonPosition) : string :=
  "(" +:+ pretty (line position) +:+ ", "
      +:+ pretty (character position) +:+ ")".

(** [toStringRange] indexes its argument with [0] and [1]: on a host
    [Range] both reads are [undefined] and [toStringPosition] fails on
    the first. *)
Definition toStringRange (range : RangeValue) : Result string :=
  match range with
  | RangeArray (p0, p1) =>
      Ok ("[" +:+ toStringPosition p0 +:+ ", " +:+ toStringPosition p1 +:+ "]")
  | RangeObject _ => Throw TypeError
  end.

Definition toJsonLineChar (lineChar : JsonPosition) : JsonPosition :=
  {| line := line lineChar; character := character lineChar |}.

(** [toJsonRange] reads [range.start] and [range.end]: on an array both are
    [undefined] and [toJsonLineChar] fails on the first. *)
Definition toJsonRange (range : RangeValue) : Result JsonRange :=
  match range with
  | RangeObject r => Ok (toJsonLineChar (start r), toJsonLineChar (end_ r))
  | RangeArray _ => Throw TypeError
  end.

Definition isSourceBreakpoint (breakpoint : Breakpoint) : bool :=
  bool_decide (get_location breakpoint ≠ None).

Definition isFunctionBreakpoint (breakpoint : Breakpoint) : bool :=
  bool_decide (get_functionName breakpoint ≠ None).

Definition areLineCharsEqual (lineChar1 lineChar2 : JsonPosition) : bool :=
  bool_decide (line lineChar1 = line lineChar2)
  && bool_decide (character lineChar1 = character lineChar2).

Definition areRangesEqual (range1 range2 : JsonRange) : bool :=
  areLineCharsEqual range1.1 range2.1 && areLineCharsEqual range1.2 range2.2.

(** The host method [Range.isEqual]: same start and same end.  Calling it
    on an array is a [TypeError]. *)
Definition Range_isEqual (range1 range2 : RangeValue) : Result bool :=
  match range1, range2 with
  | RangeObject r1, RangeObject r2 =>
      Ok (bool_decide (start r1 = start r2) && bool_decide (end_ r1 = end_ r2))
  | _, _ => Throw TypeError
  end.

(** Reading a property of a value that may be [undefined]. *)
Definition defined {A} (o : option A) : Result A :=
  match o with
  | Some a => Ok a
  | None => Throw TypeError
  end.

Definition areBreakpointsEqual (breakpoint1 breakpoint2 : Breakpoint)
  : Result bool :=
  if isSourceBreakpoint breakpoint1 && isSourceBreakpoint breakpoint2 then
    location1 ← defined (get_location breakpoint1);
    location2 ← defined (get_location breakpoint2);
    if bool_decide (uri_path location1 ≠ uri_path location2) then Ok false
    else if instanceof_SourceBreakpoint breakpoint1
            && instanceof_SourceBreakpoint breakpoint2
    then Range_isEqual (range location1) (range location2)
    else
      (* console.error: unexpected breakpoint types *)
      range1 ← toJsonRange (range location1);
      range2 ← toJsonRange (range location2);
      Ok (areRangesEqual range1 range2)
  else if isFunctionBreakpoint breakpoint1 && isFunctionBreakpoint breakpoint2
  then
    functionName1 ← defined (get_functionName breakpoint1);
    functionName2 ← defined (get_functionName breakpoint2);
    Ok (bool_decide (functionName1 = functionName2))
  else Ok false.

(** ** JavaScript arrays and maps *)

(** The clamping of a relative index that [slice] and [splice] apply: a
    negative index counts from the end. *)
Definition relativeIndex (len i : Z) : Z :=
  if decide (i < 0) then Z.max (len + i) 0 else Z.min i len.

(** [array.slice(start, end)]. *)
Definition Array_slice {A} (array : list A) (start_ end' : Z) : list A :=
  let len := Z.of_nat (length array) in
  let k := relativeIndex len start_ in
  let final := relativeIndex len end' in
  take (Z.to_nat (final - k)) (drop (Z.to_nat k) array).

(** The array after [array.splice(start, 1)]. *)
Definition Array_splice1 {A} (array : list A) (start_ : Z) : list A :=
  let len := Z.of_nat (length array) in
  let k := Z.to_nat (relativeIndex len start_) in
  take k array ++ drop (S k) array.

(** [array.findIndex(predicate)]: the first index, or [-1]. *)
Fixpoint Array_findIndex {A} (predicate : A → bool) (array : list A) : Z :=
  match array with
  | [] => -1
  | x :: rest =>
      if predicate x then 0
      else let i := Array_findIndex predicate rest in
           if decide (i = -1) then -1 else 1 + i
  end.

(** [array.find(predicate)]. *)
Fixpoint Array_find {A} (predicate : A → bool) (array : list A) : option A :=
  match array with
  | [] => None
  | x :: rest => if predicate x then Some x else Array_find predicate rest
  end.

(** The same two methods with a callback that may throw: the exception of
    the first failing call leaves the method. *)
Fixpoint Array_findIndexM {A} (predicate : A → Result bool) (array : list A)
  : Result Z :=
  match array with
  | [] => Ok (-1)
  | x :: rest =>
      found ← predicate x;
      if (found : bool) then Ok 0
      else i ← Array_findIndexM predicate rest;
           Ok (if decide (i = -1) then -1 else 1 + i)
  end.

Fixpoint Array_findM {A} (predicate : A → Result bool) (array : list A)
  : Result (option A) :=
  match array with
  | [] => Ok None
  | x :: rest =>
      found ← predicate x;
      if (found : bool) then Ok (Some x) else Array_findM predicate rest
  end.

(** [array.map(f)] with a callback that may throw. *)
Fixpoint Array_mapM {A B} (f : A → Result B) (array : list A)
  : Result (list B) :=
  match array with
  | [] => Ok []
  | x :: rest => y ← f x; ys ← Array_mapM f rest; Ok (y :: ys)
  end.

(** The elements that a [for ... of] loop pushes when its test may throw. *)
Fixpoint Array_filterM {A} (test : A → Result bool) (array : list A)
  : Result (list A) :=
  match array with
  | [] => Ok []
  | x :: rest =>
      keep ← test x;
      kept ← Array_filterM test rest;
      Ok (if (keep : bool) then x :: kept else kept)
  end.

(** A [Map] with string keys: entries in insertion order; [set] on a key
    that is present replaces the value where it stands. *)
Definition JsMap (V : Type) : Type := list (string * V).

Fixpoint Map_get {V} (key : string) (m : JsMap V) : option V :=
  match m with
  | [] => None
  | (k, v) :: rest => if bool_decide (k = key) then Some v else Map_get key rest
  end.

Fixpoint Map_set {V} (key : string) (value : V) (m : JsMap V) : JsMap V :=
  match m with
  | [] => [(key, value)]
  | (k, v) :: rest =>
      if bool_decide (k = key) then (k, value) :: rest
      else (k, v) :: Map_set key value rest
  end.

(** ** The extension module *)

Definition breakpointMapKeyName : string := "breakpointMap".

(** The part of [ExtensionContext] the module uses: the version in the
    package manifest and the workspace key-value store. *)
Record ExtensionContext := {
  packageJSON_version : string;
  workspaceState : gmap string BranchBreakpoints
}.

(** [workspaceState.update(key, value)]; [undefined] removes the key. *)
Definition workspaceState_update (key : string)
    (value : option BranchBreakpoints) (context : ExtensionContext)
  : ExtensionContext :=
  {| packageJSON_version := packageJSON_version context;
     workspaceState :=
       match value with
       | Some v => <[key := v]> (workspaceState context)
       | None => delete key (workspaceState context)
       end |}.

Definition getInitialBranchBreakpoints (context : ExtensionContext)
  : BranchBreakpoints :=
  {| version := Some (packageJSON_version context); branch := [] |}.

(** Returns the context after the update next to the function's result. *)
Definition clearBranchBreakpoints (context : ExtensionContext)
    (branchBreakpoints : BranchBreakpoints)
  : ExtensionContext * BranchBreakpoints :=
  let branchBreakpoints := getInitialBranchBreakpoints context in
  let context := workspaceState_update breakpointMapKeyName None context in
  (* trace: map cleared *)
  (context, branchBreakpoints).

(** *** The duplicate check of [getWorkspaceBreakpoints] *)

Record DuplicateBreakpoints := { breakpoint : Breakpoint; count : nat }.

Record ScanMaps := {
  locationPathMap : JsMap (JsMap DuplicateBreakpoints);
  functionNameMap : JsMap (list Breakpoint)
}.

(** The body of the loop over [breakpoints]. *)
Definition scanBreakpoint (maps : ScanMaps) (breakpoint : Breakpoint)
  : Result ScanMaps :=
  let loc := get_location breakpoint in
  let func := get_functionName breakpoint in
  match loc, func with
  | Some _, Some _ => Ok maps (* trace: location and function both set *)
  | Some loc, None =>
      let path := uri_path loc in
      rangeStr ← toStringRange (range loc);
      let rangeMap :=
        match Map_get path (locationPathMap maps) with
        | None => []
        | Some rangeMap => rangeMap
        end in
      let duplicateBreakpoints :=
        match Map_get rangeStr rangeMap with
        | None => {| breakpoint := breakpoint; count := 1 |}
        | Some duplicateBreakpoints =>
            {| breakpoint := breakpoint;
               count := count duplicateBreakpoints + 1 |}
        end in
      (* [rangeMap] is the object held by [locationPathMap]: the [set] on
         it is seen through the outer map, at the position of [path]. *)
      Ok {| locationPathMap :=
              Map_set path (Map_set rangeStr duplicateBreakpoints rangeMap)
                      (locationPathMap maps);
            functionNameMap := functionNameMap maps |}
  | None, Some func =>
      Ok {| locationPathMap := locationPathMap maps;
            functionNameMap :=
              match Map_get func (functionNameMap maps) with
              | None => Map_set func [breakpoint] (functionNameMap maps)
              | Some foundArr =>
                  (* [push] on the array held by the map *)
                  Map_set func (foundArr ++ [breakpoint]) (functionNameMap maps)
              end |}
  | None, None => Ok maps
  end.

Fixpoint scanBreakpoints (maps : ScanMaps) (breakpoints : list Breakpoint)
  : Result ScanMaps :=
  match breakpoints with
  | [] => Ok maps
  | breakpoint :: rest =>
      maps ← scanBreakpoint maps breakpoint;
      scanBreakpoints maps rest
  end.

(** The two loops that set [needsRecreate]. *)
Definition needsRecreate (maps : ScanMaps) : bool :=
  existsb (λ '(path, rangeMap),
             existsb (λ '(rangeStr, duplicateBreakpoints),
                        bool_decide (1 < count duplicateBreakpoints)%nat)
                     (rangeMap : JsMap DuplicateBreakpoints))
          (locationPathMap maps)
  || existsb (λ '(func, value), bool_decide (1 < length value)%nat)
             (functionNameMap maps).

(** The two loops that fill [newBreakpoints].  An array held by
    [functionNameMap] is never empty; [funcBreakpoints[0]] of an empty
    array would be [undefined]. *)
Definition recreateBreakpoints (maps : ScanMaps) : list Breakpoint :=
  concat (map (λ '(path, rangeMap),
                 map (λ '(rangeStr, duplicateBreakpoints),
                        breakpoint duplicateBreakpoints)
                     (rangeMap : JsMap DuplicateBreakpoints))
              (locationPathMap maps))
  ++ concat (map (λ '(func, funcBreakpoints),
                    match funcBreakpoints : list Breakpoint with
                    | first :: _ => [first]
                    | [] => []
                    end)
                 (functionNameMap maps)).

(** One iteration of the loop over [branchBreakpoints.branch]: the branch
    afterwards, and whether it was recreated.  The [catch] leaves the
    branch as it is. *)
Definition checkBranch (branch : Branch) : Branch * bool :=
  let breakpoints := breakpoints branch in
  match scanBreakpoints {| locationPathMap := []; functionNameMap := [] |}
                        breakpoints with
  | Ok maps =>
      if needsRecreate maps then
        let newBreakpoints := recreateBreakpoints maps in
        ({| name := name branch; breakpoints := newBreakpoints |}, true)
      else (branch, false)
  | Throw _ => (branch, false) (* trace: failed to check breakpoints *)
  end.

(** The loop over the branches, threading [recreated]. *)
Fixpoint checkBranches (branches : list Branch) (recreated : bool)
  : list Branch * bool :=
  match branches with
  | [] => ([], recreated)
  | branch :: rest =>
      let '(branch, changed) := checkBranch branch in
      let '(rest, recreated) := checkBranches rest (changed || recreated) in
      (branch :: rest, recreated)
  end.

(** [!branchBreakpoints.version]: the field is absent or the empty string. *)
Definition falsy_string (s : option string) : bool :=
  match s with
  | None => true
  | Some s => bool_decide (s = "")
  end.

Definition getWorkspaceBreakpoints (context : ExtensionContext)
  : ExtensionContext * (BranchBreakpoints * bool) :=
  let branchBreakpoints :=
    match workspaceState context !! breakpointMapKeyName with
    | Some stored => stored
    | None => getInitialBranchBreakpoints context
    end in
  let '(context, branchBreakpoints) :=
    if falsy_string (version branchBreakpoints) then
      let newVersion := "0.0.2" in
      let '(context, branchBreakpoints) :=
        clearBranchBreakpoints context branchBreakpoints in
      (context, {| version := Some newVersion;
                   branch := branch branchBreakpoints |})
    else (context, branchBreakpoints) in
  let '(branches, recreated) := checkBranches (branch branchBreakpoints) false in
  (context, ({| version := version branchBreakpoints; branch := branches |},
             recreated)).

(** *** Change events: [getUpdatedBreakpoints] *)

Record BreakpointsChangeEvent := {
  added : list Breakpoint;
  removed : list Breakpoint;
  changed : list Breakpoint
}.

(** A [for ... of] loop whose body updates [branch.breakpoints] and may
    throw: the exception leaves the loop with the array as it then is. *)
Fixpoint forOf {A S} (body : A → S → S * Result unit) (items : list A) (s : S)
  : S * Result unit :=
  match items with
  | [] => (s, Ok ())
  | item :: rest =>
      match body item s with
      | (s, Ok _) => forOf body rest s
      | (s, Throw e) => (s, Throw e)
      end
  end.

(** The body of the loop over [e.added]. *)
Definition addedBreakpoint (breakpoint : Breakpoint)
    (breakpoints : list Breakpoint) : list Breakpoint * Result unit :=
  match Array_findM (λ x, areBreakpointsEqual breakpoint x) breakpoints with
  | Throw e => (breakpoints, Throw e)
  | Ok (Some existinBreakpoint) => (breakpoints, Ok ())
  | Ok None => (breakpoints ++ [breakpoint], Ok ()) (* trace: added *)
  end.

(** The body of the loop over [e.changed]. *)
Definition changedBreakpoint (breakpoint : Breakpoint)
    (breakpoints : list Breakpoint) : list Breakpoint * Result unit :=
  match Array_findIndexM (λ x, areBreakpointsEqual x breakpoint) breakpoints with
  | Throw e => (breakpoints, Throw e)
  | Ok index =>
      let breakpoints := Array_splice1 breakpoints index in
      (Array_slice breakpoints 0 index
         ++ [breakpoint]
         ++ Array_slice breakpoints (index + 1) (Z.of_nat (length breakpoints)),
       Ok ()) (* trace: changed breakpoint index *)
  end.

(** The body of the loop over [e.removed]. *)
Definition removedBreakpoint (breakpoint : Breakpoint)
    (breakpoints : list Breakpoint) : list Breakpoint * Result unit :=
  match Array_findIndexM (λ x, areBreakpointsEqual x breakpoint) breakpoints with
  | Throw e => (breakpoints, Throw e)
  | Ok index =>
      (Array_splice1 breakpoints index, Ok ()) (* trace: removed index *)
  end.

(** The three loops in sequence, on [branch.breakpoints]. *)
Definition foldEvent (e : BreakpointsChangeEvent)
    (breakpoints : list Breakpoint) : list Breakpoint * Result unit :=
  match forOf addedBreakpoint (added e) breakpoints with
  | (breakpoints, Throw ex) => (breakpoints, Throw ex)
  | (breakpoints, Ok _) =>
      match forOf changedBreakpoint (changed e) breakpoints with
      | (breakpoints, Throw ex) => (breakpoints, Throw ex)
      | (breakpoints, Ok _) => forOf removedBreakpoint (removed e) breakpoints
      end
  end.

(** [getUpdatedBreakpoints].  When the branch is found, [branch] is the
    object held by [branchBreakpoints.branch], so every update of
    [branch.breakpoints] is an update of the map passed in: the first
    component of the result is that map after the call, the second is the
    value returned ([None] for [undefined]) or the exception thrown. *)
Definition getUpdatedBreakpoints (e : BreakpointsChangeEvent)
    (isBranchLocked : bool) (branchBreakpoints : BranchBreakpoints)
    (head : string)
  : BranchBreakpoints * Result (option BranchBreakpoints) :=
  if isBranchLocked then (branchBreakpoints, Ok None)
  else
    let index :=
      Array_findIndex (λ x, bool_decide (name x = head))
                      (branch branchBreakpoints) in
    let branch0 : Branch :=
      if bool_decide (index ≠ -1)
      then default {| name := head; breakpoints := [] |}
                   (branch branchBreakpoints !! Z.to_nat index)
      else {| name := head; breakpoints := [] |} in
    let '(newBreakpoints, outcome) := foldEvent e (breakpoints branch0) in
    let branch1 := {| name := name branch0; breakpoints := newBreakpoints |} in
    let memory :=
      if bool_decide (index = -1) then branchBreakpoints
      else {| version := version branchBreakpoints;
              branch := <[Z.to_nat index := branch1]>
                          (branch branchBreakpoints) |} in
    match outcome with
    | Throw ex => (memory, Throw ex)
    | Ok _ =>
        let updatedBranches :=
          if bool_decide (index = -1)
          then branch branchBreakpoints ++ [branch1]
          else <[Z.to_nat index := branch1]> (branch branchBreakpoints) in
        (memory, Ok (Some {| version := version branchBreakpoints;
                             branch := updatedBranches |}))
    end.

(** *** The host and the closure variables of [activate] *)

(** The two host constructors [getBreakpoint] calls, as far as the module
    can observe them: the path of [Uri.parse(value)], or the exception it
    throws on a string it rejects, and the range built by
    [new Range(start, end)]. *)
Class HostAPI := {
  Uri_parse : string → Result string;
  new_Range : JsonPosition → JsonPosition → Range
}.

(** The closure variables of [activate], the context it was given and the
    live breakpoints of the host ([vscodeDebug.breakpoints]). *)
Record Extension := {
  context : ExtensionContext;
  branchBreakpoints : BranchBreakpoints;
  isBranchLocked : bool;
  head : string;
  debug_breakpoints : list Breakpoint
}.

Definition set_isBranchLocked (locked : bool) (ext : Extension) : Extension :=
  {| context := context ext; branchBreakpoints := branchBreakpoints ext;
     isBranchLocked := locked; head := head ext;
     debug_breakpoints := debug_breakpoints ext |}.

Definition set_debug_breakpoints (live : list Breakpoint) (ext : Extension)
  : Extension :=
  {| context := context ext; branchBreakpoints := branchBreakpoints ext;
     isBranchLocked := isBranchLocked ext; head := head ext;
     debug_breakpoints := live |}.

Definition set_branchBreakpoints (bb : BranchBreakpoints) (ext : Extension)
  : Extension :=
  {| context := context ext; branchBreakpoints := bb;
     isBranchLocked := isBranchLocked ext; head := head ext;
     debug_breakpoints := debug_breakpoints ext |}.

Definition set_context (ctx : ExtensionContext) (ext : Extension) : Extension :=
  {| context := ctx; branchBreakpoints := branchBreakpoints ext;
     isBranchLocked := isBranchLocked ext; head := head ext;
     debug_breakpoints := debug_breakpoints ext |}.

Definition set_head (h : string) (ext : Extension) : Extension :=
  {| context := context ext; branchBreakpoints := branchBreakpoints ext;
     isBranchLocked := isBranchLocked ext; head := h;
     debug_breakpoints := debug_breakpoints ext |}.

(** Modelled from the spec: the host breakpoint API, which is outside the
    repository.  [addBreakpoints] is the union of the live set with the
    list given, [removeBreakpoints] the difference; the host tells objects
    apart, which structural equality does here as well, since every object
    equal to a removed one is removed with it. *)
Definition addBreakpoints (toAdd live : list Breakpoint) : list Breakpoint :=
  live ++ filter (λ b, b ∉ live) toAdd.

Definition removeBreakpoints (toRemove live : list Breakpoint)
  : list Breakpoint :=
  filter (λ b, b ∉ toRemove) live.

(** [try { body } finally { cleanup }] on a state: [cleanup] runs on every
    exit of [body], and the outcome of [body] is the outcome of the whole. *)
Definition try_finally {S A} (body : S → S * Result A) (cleanup : S → S)
    (s : S) : S * Result A :=
  let '(s, outcome) := body s in (cleanup s, outcome).

Section Reconciler.
Context `{HostAPI}.

Definition getBreakpoint (breakpoint : Breakpoint) : Result Breakpoint :=
  if instanceof_SourceBreakpoint breakpoint
     || instanceof_FunctionBreakpoint breakpoint
  then Ok breakpoint (* trace: already instantiated *)
  else
    match breakpoint with
    | JsonObject location functionName a =>
        match location with
        | Some (path, range) =>
            uri ← Uri_parse path;
            let range := new_Range range.1 range.2 in
            Ok (SourceBreakpoint uri range a)
        | None =>
            match functionName with
            | Some functionName =>
                if bool_decide (functionName ≠ "")
                then Ok (FunctionBreakpoint functionName a)
                else Throw (Error "location or functionName has not been defined on the breakpoint.")
            | None =>
                Throw (Error "location or functionName has not been defined on the breakpoint.")
            end
        end
    | _ => Ok breakpoint
    end.

(** The body of the [try] block of [setBreakpoints]. *)
Definition setBreakpoints_body (ext : Extension) : Extension * Result unit :=
  let ext := set_isBranchLocked true ext in
  let curBreakpoints := debug_breakpoints ext in
  let branchBreakpoint :=
    Array_find (λ x, bool_decide (name x = head ext))
               (branch (branchBreakpoints ext)) in
  let jsonBreakpoints := breakpoints <$> branchBreakpoint in
  match jsonBreakpoints with
  | Some ((_ :: _) as jsonBreakpoints) =>
      let computed :=
        newBreakpoints ← Array_mapM getBreakpoint jsonBreakpoints;
        toRemove ← Array_filterM
          (λ breakpoint,
             found ← Array_findM (λ x, areBreakpointsEqual breakpoint x)
                                 newBreakpoints;
             Ok (bool_decide (found = None)))
          curBreakpoints;
        toAdd ← Array_filterM
          (λ breakpoint,
             found ← Array_findM (λ x, areBreakpointsEqual breakpoint x)
                                 curBreakpoints;
             Ok (bool_decide (found = None)))
          newBreakpoints;
        Ok (toAdd, toRemove) in
      match computed with
      | Ok (toAdd, toRemove) =>
          let live := addBreakpoints toAdd (debug_breakpoints ext) in
          let live := removeBreakpoints toRemove live in
          (set_debug_breakpoints live ext, Ok ())
      | Throw ex => (ext, Throw ex)
      end
  | _ => (ext, Ok ()) (* trace: no breakpoints set for head *)
  end.

Definition setBreakpoints : Extension → Extension * Result unit :=
  try_finally setBreakpoints_body (set_isBranchLocked false).

(** The callback of [fs.watch]; [newHead] is what [getHead] read. *)
Definition onHeadFileChange (newHead : string) (ext : Extension)
  : Extension * Result unit :=
  if bool_decide (newHead = head ext) then (ext, Ok ())
  else setBreakpoints (set_head newHead ext).

(** The listener of [onDidChangeBreakpoints]. *)
Definition onDidChangeBreakpoints (e : BreakpointsChangeEvent)
    (ext : Extension) : Extension * Result unit :=
  let '(memory, outcome) :=
    getUpdatedBreakpoints e (isBranchLocked ext) (branchBreakpoints ext)
                          (head ext) in
  let ext := set_branchBreakpoints memory ext in
  match outcome with
  | Throw ex => (ext, Throw ex)
  | Ok None => (ext, Ok ())
  | Ok (Some update) =>
      let ext := set_branchBreakpoints update ext in
      (set_context (workspaceState_update breakpointMapKeyName (Some update)
                                          (context ext)) ext,
       Ok ())
  end.

(** The command [branchBreakpoints.clearMap]. *)
Definition clearMapCommand (ext : Extension) : Extension :=
  let '(ctx, cleared) :=
    clearBranchBreakpoints (context ext) (branchBreakpoints ext) in
  set_branchBreakpoints cleared (set_context ctx ext).

(** The command [branchBreakpoints.printMap]: a trace of the map. *)
Definition printMapCommand (ext : Extension) : Extension := ext.

(** [activate], up to the registration of the commands and listeners.
    [headFile] is the content of the marker file when it exists. *)
Definition activate (ctx : ExtensionContext) (headFile : option string)
    (live : list Breakpoint) : Extension * Result unit :=
  let '(ctx, (loaded, recreated)) := getWorkspaceBreakpoints ctx in
  let ext :=
    {| context := ctx; branchBreakpoints := loaded; isBranchLocked := false;
       head := default "__noBranchName" headFile;
       debug_breakpoints := live |} in
  if recreated then
    match setBreakpoints ext with
    | (ext, Throw ex) => (ext, Throw ex)
    | (ext, Ok _) =>
        (set_context (workspaceState_update breakpointMapKeyName
                        (Some (branchBreakpoints ext)) (context ext)) ext,
         Ok ())
    end
  else (ext, Ok ()).
End Reconciler.

(** ** Vocabulary of the statements *)



(** What [vscodeDebug.breakpoints] holds: objects of the host, that is,
    instances of the two classes or objects without a location. *)
Definition hostObject (b : Breakpoint) : bool :=
  match b with
  | JsonObject (Some _) _ _ => false
  | _ => true
  end.

(** An instance of one of the two host classes. *)
Definition instantiated (b : Breakpoint) : bool :=
  instanceof_SourceBreakpoint b || instanceof_FunctionBreakpoint b.

(** The stored entries [getBreakpoint] can turn into a host object: the
    instances, the records with a location whose path the host parses, and
    the records with a non-empty function name. *)
Definition constructible `{HostAPI} (b : Breakpoint) : bool :=
  match b with
  | JsonObject (Some (path, _)) _ _ =>
      match Uri_parse path with Ok _ => true | Throw _ => false end
  | JsonObject None (Some functionName) _ => bool_decide (functionName ≠ "")
  | JsonObject None None _ => false
  | _ => true
  end.


(** The test of the two loops of [setBreakpoints] that fill [toRemove] and
    [toAdd]: no element of [others] is equal to [b]. *)
Definition hasNoEqual (others : list Breakpoint) (b : Breakpoint)
  : Result bool :=
  found ← Array_findM (λ x, areBreakpointsEqual b x) others;
  Ok (bool_decide (found = None)).


(** The stored list of the branch that [head] names, as [setBreakpoints]
    looks it up. *)
Definition storedFor (ext : Extension) : option (list Breakpoint) :=
  breakpoints <$> Array_find (λ x, bool_decide (name x = head ext))
                             (branch (branchBreakpoints ext)).

(** The key under which the scan of the duplicate check files a
    breakpoint in [locationPathMap]: the path and the stringified range of
    a breakpoint with a location and no function name. *)
Definition locationKey (b : Breakpoint) : option (string * string) :=
  match get_location b, get_functionName b with
  | Some loc, None =>
      match toStringRange (range loc) with
      | Ok rangeStr => Some (uri_path loc, rangeStr)
      | Throw _ => None
      end
  | _, _ => None
  end.

(** The key in [functionNameMap]: the name of a breakpoint with a function
    name and no location. *)
Definition functionKey (b : Breakpoint) : option string :=
  match get_location b, get_functionName b with
  | None, Some func => Some func
  | _, _ => None
  end.

(** The breakpoints the scan passes without an exception: all but those
    whose range cannot be stringified. *)
Definition scannable (b : Breakpoint) : bool :=
  match get_location b, get_functionName b with
  | Some loc, None =>
      match toStringRange (range loc) with
      | Ok _ => true
      | Throw _ => false
      end
  | _, _ => true
  end.

(** The location breakpoints of a list filed under one key, in scan
    order. *)
Definition locationBreakpointsAt (path rangeStr : string)
    (l : list Breakpoint) : list Breakpoint :=
  filter (λ b, locationKey b = Some (path, rangeStr)) l.

Definition functionBreakpointsAt (func : string) (l : list Breakpoint)
  : list Breakpoint :=
  filter (λ b, functionKey b = Some func) l.

(** The entry of [locationPathMap] for a path and a range. *)
Definition getDuplicate (path rangeStr : string)
    (m : JsMap (JsMap DuplicateBreakpoints)) : option DuplicateBreakpoints :=
  rangeMap ← Map_get path m; Map_get rangeStr rangeMap.

Definition emptyMaps : ScanMaps :=
  {| locationPathMap := []; functionNameMap := [] |}.

(** The entry the scan writes for a location breakpoint, given the entry
    it found under the same key. *)
Definition bumped (old : option DuplicateBreakpoints) (b : Breakpoint)
  : DuplicateBreakpoints :=
  {| breakpoint := b;
     count := match old with
              | None => 1
              | Some duplicateBreakpoints => count duplicateBreakpoints + 1
              end |}.

(** The two halves of [recreateBreakpoints]. *)
Definition locationPart (m : JsMap (JsMap DuplicateBreakpoints))
  : list Breakpoint :=
  concat (map (λ '(path, rangeMap),
                 map (λ '(rangeStr, duplicateBreakpoints),
                        breakpoint duplicateBreakpoints)
                     (rangeMap : JsMap DuplicateBreakpoints)) m).

Definition functionPart (m : JsMap (list Breakpoint)) : list Breakpoint :=
  concat (map (λ '(func, funcBreakpoints),
                 match funcBreakpoints : list Breakpoint with
                 | first :: _ => [first]
                 | [] => []
                 end) m).

(** Keys are unique in the maps of the scan, as they are in a [Map]. *)
Record UniqueKeys (maps : ScanMaps) : Prop := {
  unique_paths : NoDup (locationPathMap maps).*1;
  unique_ranges :
    ∀ path rangeMap, (path, rangeMap) ∈ locationPathMap maps →
                     NoDup rangeMap.*1;
  unique_functions : NoDup (functionNameMap maps).*1
}.

(** Every breakpoint held by the maps of the scan is filed under its own
    key. *)
Record FiledByKey (maps : ScanMaps) : Prop := {
  filed_locations :
    ∀ path rangeMap rangeStr d,
      (path, rangeMap) ∈ locationPathMap maps →
      (rangeStr, d) ∈ (rangeMap : JsMap DuplicateBreakpoints) →
      locationKey (breakpoint d) = Some (path, rangeStr);
  filed_functions :
    ∀ func funcBreakpoints b,
      (func, funcBreakpoints) ∈ functionNameMap maps →
      b ∈ (funcBreakpoints : list Breakpoint) →
      functionKey b = Some func
}.

(** A breakpoint with other values in the fields of the base class. *)
Definition with_attributes (a : Attributes) (b : Breakpoint) : Breakpoint :=
  match b with
  | SourceBreakpoint p r _ => SourceBreakpoint p r a
  | FunctionBreakpoint f _ => FunctionBreakpoint f a
  | JsonObject l f _ => JsonObject l f a
  end.

(** Decimal digits, and the strings made of them. *)
Definition isDigit (c : ascii) : bool :=
  match c with
  | "0" | "1" | "2" | "3" | "4" | "5" | "6" | "7" | "8" | "9" => true
  | _ => false
  end%char.

Fixpoint allDigits (s : string) : bool :=
  match s with
  | EmptyString => true
  | String c rest => isDigit c && allDigits rest
  end.

(** A string that begins with a character that is no digit. *)
Definition startsWithoutDigit (s : string) : bool :=
  match s with
  | EmptyString => false
  | String c _ => negb (isDigit c)
  end.

(** A plain record, as [workspaceState.get] revives the entries of the
    persisted map: no instance of a host class, and its range, if any, a
    two-element array. *)
Definition revived (b : Breakpoint) : bool :=
  match b with
  | JsonObject _ _ _ => true
  | _ => false
  end.

(** The key of a breakpoint in the scan of the duplicate check, in either
    map; [None] for the breakpoints the scan passes over. *)
Definition scanKey (b : Breakpoint) : option (string * string + string) :=
  match locationKey b with
  | Some key => Some (inl key)
  | None => inr <$> functionKey b
  end.

(** No two entries of a list are equal breakpoints. *)
Definition pairwiseDistinct (l : list Breakpoint) : Prop :=
  ∀ i j x y, l !! i = Some x → l !! j = Some y → i ≠ j →
             areBreakpointsEqual x y = Ok false.

(** ** Sample values used by the examples *)

Module Samples.
Definition on : Attributes :=
  {| enabled := true; condition := None; hitCondition := None;
     logMessage := None |}.
Definition off : Attributes :=
  {| enabled := false; condition := None; hitCondition := None;
     logMessage := None |}.
Definition pos (l c : N) : JsonPosition := {| line := l; character := c |}.

(** Revived from a persisted blob. *)
Definition storedA : Breakpoint :=
  JsonObject (Some ("/a.ts", (pos 1 0, pos 1 5))) None on.
Definition storedA_off : Breakpoint :=
  JsonObject (Some ("/a.ts", (pos 1 0, pos 1 5))) None off.
Definition storedB : Breakpoint :=
  JsonObject (Some ("/b.ts", (pos 2 0, pos 2 0))) None on.
Definition storedF : Breakpoint := JsonObject None (Some "main") on.
Definition storedNeither : Breakpoint := JsonObject None None on.

(** Instances of the host classes. *)
Definition liveA : Breakpoint :=
  SourceBreakpoint "/a.ts" {| start := pos 1 0; end_ := pos 1 5 |} on.
Definition liveA_off : Breakpoint :=
  SourceBreakpoint "/a.ts" {| start := pos 1 0; end_ := pos 1 5 |} off.
Definition liveB : Breakpoint :=
  SourceBreakpoint "/b.ts" {| start := pos 2 0; end_ := pos 2 0 |} on.
Definition liveC : Breakpoint :=
  SourceBreakpoint "/c.ts" {| start := pos 7 0; end_ := pos 7 0 |} on.
Definition liveF : Breakpoint := FunctionBreakpoint "main" on.

(** Host constructors that keep the values they are given. *)
Definition host : HostAPI :=
  {| Uri_parse := λ value, Ok value;
     new_Range := λ s e, {| start := s; end_ := e |} |}.





Definition emptyContext : ExtensionContext :=
  {| packageJSON_version := "0.0.2"; workspaceState := ∅ |}.

Definition mapOf (branches : list Branch) : BranchBreakpoints :=
  {| version := Some "0.0.2"; branch := branches |}.

Definition extensionOf (branches : list Branch) (locked : bool)
    (live : list Breakpoint) : Extension :=
  {| context :=
       workspaceState_update breakpointMapKeyName (Some (mapOf branches))
                             emptyContext;
     branchBreakpoints := mapOf branches;
     isBranchLocked := locked;
     head := "main";
     debug_breakpoints := live |}.

Definition removedEvent (b : Breakpoint) : BreakpointsChangeEvent :=
  {| added := []; removed := [b]; changed := [] |}.
Definition changedEvent (b : Breakpoint) : BreakpointsChangeEvent :=
  {| added := []; removed := []; changed := [b] |}.
Definition addedEvent (b : Breakpoint) : BreakpointsChangeEvent :=
  {| added := [b]; removed := []; changed := [] |}.
Definition emptyEvent : BreakpointsChangeEvent :=
  {| added := []; removed := []; changed := [] |}.
End Samples.

(** ** Properties of the equality predicates *)

(** Case analysis on the first [bool_decide] of the goal. *)
Ltac case_decision :=
  match goal with
  | |- context [bool_decide ?P] =>
      destruct (decide P);
      [rewrite (bool_decide_true P) by assumption
      |rewrite (bool_decide_false P) by assumption]
  end.

Section Equality.
Lemma areLineCharsEqual_spec p q :
  areLineCharsEqual p q = bool_decide (p = q).
Proof.
  unfold areLineCharsEqual. destruct p as [l1 c1], q as [l2 c2]; simpl.
  repeat case_decision; simplify_eq; done.
Qed.

Lemma areRangesEqual_spec (r1 r2 : JsonRange) :
  areRangesEqual r1 r2 = bool_decide (r1 = r2).
Proof.
  unfold areRangesEqual. rewrite !areLineCharsEqual_spec.
  destruct r1, r2; simpl. repeat case_decision; simplify_eq; done.
Qed.

(** The argument order does not matter, exception included. *)
Lemma areBreakpointsEqual_comm (a b : Breakpoint) :
  areBreakpointsEqual a b = areBreakpointsEqual b a.
Proof.
  unfold areBreakpointsEqual, isSourceBreakpoint, isFunctionBreakpoint.
  destruct a as [p1 r1 a1|f1 a1|[[p1 r1]|] [f1|] a1],
           b as [p2 r2 a2|f2 a2|[[p2 r2]|] [f2|] a2]; simpl;
    repeat (first [case_decision | progress simpl]; simplify_eq);
    try done.
Qed.

(** On two instances of [SourceBreakpoint] the result is the comparison
    of path and range. *)
Lemma areBreakpointsEqual_source p1 r1 a1 p2 r2 a2 :
  areBreakpointsEqual (SourceBreakpoint p1 r1 a1) (SourceBreakpoint p2 r2 a2)
  = Ok (bool_decide (p1 = p2 ∧ r1 = r2)).
Proof.
  unfold areBreakpointsEqual; simpl.
  destruct (decide (p1 = p2)) as [->|Hp].
  - rewrite (bool_decide_false (p2 ≠ p2)) by (intros Hne; by apply Hne).
    f_equal. destruct r1 as [s1 e1], r2 as [s2 e2]; simpl.
    destruct (decide (s1 = s2)) as [->|Hs], (decide (e1 = e2)) as [->|He];
      repeat case_decision; try done; exfalso; intuition congruence.
  - rewrite (bool_decide_true (p1 ≠ p2)) by done.
    rewrite bool_decide_false; [done|intuition congruence].
Qed.

(** On two objects with a function name and no location the result is
    the comparison of the names. *)
Lemma areBreakpointsEqual_function (a b : Breakpoint) f1 f2 :
  get_location a = None → get_location b = None →
  get_functionName a = Some f1 → get_functionName b = Some f2 →
  areBreakpointsEqual a b = Ok (bool_decide (f1 = f2)).
Proof.
  intros Ha Hb Hf1 Hf2.
  unfold areBreakpointsEqual, isSourceBreakpoint, isFunctionBreakpoint.
  rewrite Ha, Hb, Hf1, Hf2. reflexivity.
Qed.

(** A location on one side only: not equal. *)
Lemma areBreakpointsEqual_source_function (a b : Breakpoint) :
  get_location a ≠ None → get_functionName a = None →
  get_location b = None →
  areBreakpointsEqual a b = Ok false.
Proof.
  intros Ha Hfa Hb.
  unfold areBreakpointsEqual, isSourceBreakpoint, isFunctionBreakpoint.
  rewrite Hb, Hfa. simpl. rewrite andb_false_r. reflexivity.
Qed.

(** Neither field on one side: not equal, whatever the other side. *)
Lemma areBreakpointsEqual_neither_l (a b : Breakpoint) :
  get_location a = None → get_functionName a = None →
  areBreakpointsEqual a b = Ok false.
Proof.
  intros Ha Hfa.
  unfold areBreakpointsEqual, isSourceBreakpoint, isFunctionBreakpoint.
  rewrite Ha, Hfa. reflexivity.
Qed.

(** A plain record with a location, compared with anything that has the
    same path, leaves [areBreakpointsEqual] by the exception of
    [toJsonRange]. *)
Lemma areBreakpointsEqual_json_location p r f a (b : Breakpoint) l :
  get_location b = Some l → uri_path l = p →
  areBreakpointsEqual (JsonObject (Some (p, r)) f a) b = Throw TypeError.
Proof.
  intros Hl <-. unfold areBreakpointsEqual, isSourceBreakpoint.
  rewrite Hl; simpl.
  rewrite bool_decide_false by (intros Hne; by apply Hne). reflexivity.
Qed.


(** It fails to return exactly on two breakpoints with a location and the
    same path that are not both instances of [SourceBreakpoint]. *)
Lemma areBreakpointsEqual_throws (a b : Breakpoint) :
  (∃ ex, areBreakpointsEqual a b = Throw ex) ↔
  ∃ locationA locationB,
    get_location a = Some locationA ∧ get_location b = Some locationB
    ∧ uri_path locationA = uri_path locationB
    ∧ instanceof_SourceBreakpoint a && instanceof_SourceBreakpoint b = false.
Proof.
  unfold areBreakpointsEqual, isSourceBreakpoint, isFunctionBreakpoint.
  destruct a as [p1 [s1 e1] a1|f1 a1|[[p1 r1]|] [f1|] a1],
           b as [p2 [s2 e2] a2|f2 a2|[[p2 r2]|] [f2|] a2]; simpl;
    repeat (first [case_decision | progress simpl]; simplify_eq);
    (split;
     [intros [ex Hex]; try done;
      first [by eexists _, _
            |eexists _, _; repeat split; simpl; by apply dec_stable]
     |intros (la & lb & Ha & Hb & Hpath & Hinst); simplify_eq; simpl in *;
      try done; by eexists]).
Qed.
End Equality.

(** ** Equality within the host classes *)

Section HostEquality.
(** On instances of [SourceBreakpoint], [areBreakpointsEqual] is an
    equivalence on (path, range). *)
Lemma areBreakpointsEqual_source_refl p r a :
  areBreakpointsEqual (SourceBreakpoint p r a) (SourceBreakpoint p r a)
  = Ok true.
Proof. rewrite areBreakpointsEqual_source. by rewrite bool_decide_true. Qed.

Lemma areBreakpointsEqual_source_trans p1 r1 a1 p2 r2 a2 p3 r3 a3 :
  areBreakpointsEqual (SourceBreakpoint p1 r1 a1) (SourceBreakpoint p2 r2 a2)
  = Ok true →
  areBreakpointsEqual (SourceBreakpoint p2 r2 a2) (SourceBreakpoint p3 r3 a3)
  = Ok true →
  areBreakpointsEqual (SourceBreakpoint p1 r1 a1) (SourceBreakpoint p3 r3 a3)
  = Ok true.
Proof.
  rewrite !areBreakpointsEqual_source. intros H12 H23.
  injection H12 as H12. injection H23 as H23.
  apply bool_decide_eq_true in H12 as [-> ->].
  apply bool_decide_eq_true in H23 as [-> ->].
  by rewrite bool_decide_true.
Qed.

(** On objects that carry a function name and no location it is an
    equivalence on the name. *)
Lemma areBreakpointsEqual_function_refl (a : Breakpoint) f :
  get_location a = None → get_functionName a = Some f →
  areBreakpointsEqual a a = Ok true.
Proof.
  intros Ha Hf. rewrite (areBreakpointsEqual_function a a f f) by done.
  by rewrite bool_decide_true.
Qed.

Lemma areBreakpointsEqual_function_trans (a b c : Breakpoint) :
  get_location a = None → get_location b = None → get_location c = None →
  areBreakpointsEqual a b = Ok true → areBreakpointsEqual b c = Ok true →
  areBreakpointsEqual a c = Ok true.
Proof.
  intros Ha Hb Hc.
  unfold areBreakpointsEqual, isSourceBreakpoint, isFunctionBreakpoint.
  rewrite Ha, Hb, Hc. simpl.
  destruct (get_functionName a) as [fa|], (get_functionName b) as [fb|],
           (get_functionName c) as [fc|]; simpl; try done.
  intros Hab Hbc. injection Hab as Hab. injection Hbc as Hbc.
  apply bool_decide_eq_true in Hab as ->.
  apply bool_decide_eq_true in Hbc as ->.
  by rewrite bool_decide_true.
Qed.
End HostEquality.

(** C8 (the code departs from the claim).  Breakpoint equality is claimed
    to be reflexive on every Source breakpoint.  A Source breakpoint revived
    from the persisted blob is a plain record whose range is a two-element
    array; compared with itself, [areBreakpointsEqual] takes the branch for
    objects that are no [SourceBreakpoint] instances, where [toJsonRange]
    reads [start] of the array and throws: no value is returned, so the
    relation is not reflexive there. *)
Theorem areBreakpointsEqual_stored_source_throws path range a :
  areBreakpointsEqual (JsonObject (Some (path, range)) None a)
                      (JsonObject (Some (path, range)) None a)
  = Throw TypeError.
Proof. by eapply areBreakpointsEqual_json_location. Qed.

(** C10.  A breakpoint with neither [location] nor [functionName] is equal
    to nothing, itself included: [areBreakpointsEqual] returns [false] on
    either side, so no search of the reconciler finds a match for it, and
    the duplicate check passes over it. *)
Theorem areBreakpointsEqual_neither_never (b : Breakpoint) :
  get_location b = None → get_functionName b = None →
  areBreakpointsEqual b b = Ok false
  ∧ (∀ x, areBreakpointsEqual b x = Ok false
          ∧ areBreakpointsEqual x b = Ok false)
  ∧ (∀ stored, Array_findM (λ x, areBreakpointsEqual b x) stored = Ok None)
  ∧ (∀ stored,
       Array_findIndexM (λ x, areBreakpointsEqual x b) stored = Ok (-1))
  ∧ (∀ maps, scanBreakpoint maps b = Ok maps).
Proof.
  intros Hl Hf.
  assert (Hleft : ∀ x, areBreakpointsEqual b x = Ok false)
    by (intros x; by apply areBreakpointsEqual_neither_l).
  assert (Hright : ∀ x, areBreakpointsEqual x b = Ok false)
    by (intros x; by rewrite areBreakpointsEqual_comm).
  repeat split; try done.
  - intros stored. induction stored as [|x rest IH]; simpl; [done|].
    by rewrite Hleft.
  - intros stored. induction stored as [|x rest IH]; simpl; [done|].
    rewrite Hright. simpl. by rewrite IH.
  - intros maps. unfold scanBreakpoint. by rewrite Hl, Hf.
Qed.

Lemma areBreakpointsEqual_neither_never_witness :
  areBreakpointsEqual Samples.storedNeither Samples.storedNeither = Ok false
  ∧ (∀ x, areBreakpointsEqual Samples.storedNeither x = Ok false
          ∧ areBreakpointsEqual x Samples.storedNeither = Ok false)
  ∧ (∀ stored,
       Array_findM (λ x, areBreakpointsEqual Samples.storedNeither x) stored
       = Ok None)
  ∧ (∀ stored,
       Array_findIndexM (λ x, areBreakpointsEqual x Samples.storedNeither)
                        stored = Ok (-1))
  ∧ (∀ maps, scanBreakpoint maps Samples.storedNeither = Ok maps).
Proof.
  apply (areBreakpointsEqual_neither_never Samples.storedNeither);
    reflexivity.
Defined.

(** ** The feedback-loop guard *)

(** C6.  While [isBranchLocked] is set, [getUpdatedBreakpoints] returns
    [undefined] for every map, branch name and event, without touching the
    map it was given; and the listener, run in a state where the flag is
    set, leaves the whole state (map in memory and persisted blob) as it
    was. *)
Theorem getUpdatedBreakpoints_locked (e : BreakpointsChangeEvent)
    (map0 : BranchBreakpoints) (head0 : string) (ext : Extension) :
  isBranchLocked ext = true →
  getUpdatedBreakpoints e true map0 head0 = (map0, Ok None)
  ∧ onDidChangeBreakpoints e ext = (ext, Ok ()).
Proof.
  intros Hlocked. unfold onDidChangeBreakpoints, getUpdatedBreakpoints.
  rewrite Hlocked. split; [done|]. by destruct ext.
Qed.

Lemma getUpdatedBreakpoints_locked_witness :
  let map0 :=
    Samples.mapOf [{| name := "main"; breakpoints := [Samples.liveA] |}] in
  let ext :=
    Samples.extensionOf
      [{| name := "main"; breakpoints := [Samples.liveA] |}] true
      [Samples.liveA] in
  let e := Samples.removedEvent Samples.liveA in
  getUpdatedBreakpoints e true map0 "main" = (map0, Ok None)
  ∧ onDidChangeBreakpoints e ext = (ext, Ok ()).
Proof.
  intros map0 ext e.
  apply (getUpdatedBreakpoints_locked e map0 "main" ext). reflexivity.
Defined.

(** The guard is what makes the difference: the same event on the same
    state, unlocked, does change the map. *)
Example getUpdatedBreakpoints_unlocked_changes :
  let ext :=
    Samples.extensionOf
      [{| name := "main"; breakpoints := [Samples.liveA] |}] false
      [Samples.liveA] in
  branchBreakpoints
    (onDidChangeBreakpoints (Samples.removedEvent Samples.liveA) ext).1
  = Samples.mapOf [{| name := "main"; breakpoints := [] |}].
Proof. vm_compute. reflexivity. Qed.

(** Inside the [try] block the flag is set on every path. *)
Lemma setBreakpoints_body_locked `{HostAPI} (ext : Extension) :
  isBranchLocked (setBreakpoints_body ext).1 = true.
Proof.
  unfold setBreakpoints_body.
  destruct (breakpoints <$> Array_find _ _) as [[|b l]|]; simpl; try done.
  match goal with
  | |- context [match ?computed with Ok _ => _ | Throw _ => _ end] =>
      destruct computed as [[toAdd toRemove]|ex]
  end; done.
Qed.

(** C7.  [setBreakpoints] leaves [isBranchLocked] at [false] whatever the
    exit: normal completion, the branch without stored breakpoints, and
    an exception, that of [getBreakpoint] included.  The flag was set
    throughout the [try] block, and the outcome of the block, exception
    included, is the outcome of [setBreakpoints]. *)
Theorem setBreakpoints_unlocks `{HostAPI} (ext : Extension) :
  isBranchLocked (setBreakpoints ext).1 = false
  ∧ isBranchLocked (setBreakpoints_body ext).1 = true
  ∧ (setBreakpoints ext).2 = (setBreakpoints_body ext).2.
Proof.
  split; [|split; [apply setBreakpoints_body_locked|]];
    unfold setBreakpoints, try_finally;
    by destruct (setBreakpoints_body ext) as [ext' outcome].
Qed.

(** Change events that the host delivers while the [try] block is running
    find the flag set, and are ignored. *)
Lemma onDidChangeBreakpoints_while_applying `{HostAPI}
    (e : BreakpointsChangeEvent) (ext : Extension) :
  onDidChangeBreakpoints e (setBreakpoints_body ext).1
  = ((setBreakpoints_body ext).1, Ok ()).
Proof.
  unfold onDidChangeBreakpoints, getUpdatedBreakpoints.
  rewrite setBreakpoints_body_locked.
  by destruct (setBreakpoints_body ext).1.
Qed.

(** The callers of [setBreakpoints] hand the flag back unset as well: the
    callback of the file watcher, and [activate]. *)
Lemma onHeadFileChange_unlocked `{HostAPI} (newHead : string)
    (ext : Extension) :
  isBranchLocked ext = false →
  isBranchLocked (onHeadFileChange newHead ext).1 = false.
Proof.
  intros Hidle. unfold onHeadFileChange.
  destruct (bool_decide _); [done|].
  unfold setBreakpoints, try_finally.
  by destruct (setBreakpoints_body _).
Qed.

Lemma activate_unlocked `{HostAPI} (ctx : ExtensionContext)
    (headFile : option string) (live : list Breakpoint) :
  isBranchLocked (activate ctx headFile live).1 = false.
Proof.
  unfold activate.
  destruct (getWorkspaceBreakpoints ctx) as [ctx' [loaded [|]]]; [|done].
  unfold setBreakpoints, try_finally.
  destruct (setBreakpoints_body _) as [ext' [[]|ex]]; done.
Qed.

(** The exit by the exception of [getBreakpoint]: nothing is added or
    removed, and the flag is reset. *)
Lemma setBreakpoints_throws `{HostAPI} (ext : Extension) stored ex :
  storedFor ext = Some stored → stored ≠ [] →
  Array_mapM getBreakpoint stored = Throw ex →
  setBreakpoints ext
  = (set_isBranchLocked false (set_isBranchLocked true ext), Throw ex).
Proof.
  unfold storedFor, setBreakpoints, try_finally, setBreakpoints_body.
  simpl. intros -> Hne Hthrow. destruct stored as [|s0 stored0]; [done|].
  by rewrite Hthrow.
Qed.

(** The three exits, each reached from a locked or unlocked start. *)
Example setBreakpoints_exit_normal :
  @setBreakpoints Samples.host
    (Samples.extensionOf
       [{| name := "main"; breakpoints := [Samples.storedA] |}] false [])
  = (Samples.extensionOf
       [{| name := "main"; breakpoints := [Samples.storedA] |}] false
       [Samples.liveA],
     Ok ()).
Proof. vm_compute. reflexivity. Qed.

Example setBreakpoints_exit_empty :
  @setBreakpoints Samples.host
    (Samples.extensionOf [{| name := "main"; breakpoints := [] |}] true
                         [Samples.liveB])
  = (Samples.extensionOf [{| name := "main"; breakpoints := [] |}] false
                         [Samples.liveB],
     Ok ()).
Proof. vm_compute. reflexivity. Qed.

Example setBreakpoints_exit_error :
  @setBreakpoints Samples.host
    (Samples.extensionOf
       [{| name := "main"; breakpoints := [Samples.storedNeither] |}] false
       [Samples.liveB])
  = (Samples.extensionOf
       [{| name := "main"; breakpoints := [Samples.storedNeither] |}] false
       [Samples.liveB],
     Throw (Error "location or functionName has not been defined on the breakpoint.")).
Proof. vm_compute. reflexivity. Qed.

(** ** The clear-map command *)

(** C9, as stated, fails: after the command the persisted blob is not an
    empty branch list with the current version; the key holds nothing. *)
Lemma clearMapCommand_blob_counterexample :
  let ext :=
    clearMapCommand
      (Samples.extensionOf
         [{| name := "main"; breakpoints := [Samples.storedA] |}] false []) in
  ¬ (branchBreakpoints ext = {| version := Some "0.0.2"; branch := [] |}
     ∧ workspaceState (context ext) !! breakpointMapKeyName
       = Some {| version := Some "0.0.2"; branch := [] |}).
Proof. intros ext [_ Hblob]. vm_compute in Hblob. discriminate Hblob. Qed.

(** C9, amended.  After the clear-map command the map in memory is the
    empty branch list with the version of the package manifest, and the
    persisted blob under the fixed key is erased (the other keys of the
    store are untouched); the next load, finding no blob, starts from an
    empty branch list again and reports no change. *)
Theorem clearMapCommand_resets (ext : Extension) :
  let ext' := clearMapCommand ext in
  branchBreakpoints ext'
  = {| version := Some (packageJSON_version (context ext)); branch := [] |}
  ∧ workspaceState (context ext') !! breakpointMapKeyName = None
  ∧ workspaceState (context ext')
    = delete breakpointMapKeyName (workspaceState (context ext))
  ∧ branch (getWorkspaceBreakpoints (context ext')).2.1 = []
  ∧ (getWorkspaceBreakpoints (context ext')).2.2 = false
  ∧ printMapCommand ext' = ext'.
Proof.
  simpl. unfold clearMapCommand, clearBranchBreakpoints; simpl.
  split; [done|]. split; [apply lookup_delete_eq|].
  split; [done|].
  unfold getWorkspaceBreakpoints; simpl.
  rewrite lookup_delete_eq.
  unfold getInitialBranchBreakpoints; simpl.
  destruct (bool_decide _); done.
Qed.

(** ** Change events that match nothing *)

Section NoMatch.
Lemma relativeIndex_minus_one (len : Z) :
  0 ≤ len → relativeIndex len (-1) = Z.max (len - 1) 0.
Proof. intros Hlen. unfold relativeIndex. destruct (decide _); lia. Qed.

(** [splice(-1, 1)] deletes the last element. *)
Lemma Array_splice1_minus_one {A} (array : list A) :
  Array_splice1 array (-1) = removelast array.
Proof.
  unfold Array_splice1. rewrite relativeIndex_minus_one by lia.
  rewrite removelast_firstn_len.
  destruct array as [|x rest] using rev_ind; [done|].
  rewrite length_app; simpl.
  replace (Z.to_nat (Z.max (Z.of_nat (length rest + 1) - 1) 0))
    with (length rest) by lia.
  replace (Nat.pred (length rest + 1)) with (length rest) by lia.
  rewrite (drop_ge (rest ++ [x])) by (rewrite length_app; simpl; lia).
  by rewrite app_nil_r.
Qed.

(** [slice(0, -1)] is the array without its last element, and
    [slice(0, length)] the whole array. *)
Lemma Array_slice_minus_one {A} (array : list A) :
  Array_slice array 0 (-1) = removelast array.
Proof.
  unfold Array_slice. rewrite relativeIndex_minus_one by lia.
  rewrite removelast_firstn_len. unfold relativeIndex.
  destruct (decide (0 < 0)); [lia|].
  replace (Z.to_nat (0 `min` Z.of_nat (length array))) with 0%nat by lia.
  rewrite drop_0. f_equal. lia.
Qed.

Lemma Array_slice_all {A} (array : list A) :
  Array_slice array 0 (Z.of_nat (length array)) = array.
Proof.
  unfold Array_slice, relativeIndex.
  destruct (decide (0 < 0)); [lia|].
  destruct (decide (Z.of_nat (length array) < 0)); [lia|].
  replace (Z.to_nat (0 `min` Z.of_nat (length array))) with 0%nat by lia.
  rewrite drop_0, take_ge; [done|lia].
Qed.

(** [findIndex] returns [-1] exactly when the callback returns [false] on
    every element. *)
Lemma Array_findIndexM_minus_one {A} (p : A → Result bool) (array : list A) :
  Array_findIndexM p array = Ok (-1) ↔ ∀ x, x ∈ array → p x = Ok false.
Proof.
  assert (Hnonneg : ∀ l i, Array_findIndexM p l = Ok i → -1 ≤ i).
  { induction l as [|y rest IH]; simpl; intros i.
    - intros [= <-]. lia.
    - destruct (p y) as [[|]|ex]; simpl; [by intros [= <-]| |done].
      destruct (Array_findIndexM p rest) as [j|ex]; simpl; [|done].
      specialize (IH j eq_refl). intros [= <-]. destruct (decide _); lia. }
  induction array as [|y rest IH]; simpl.
  - split; [by intros _ x ?%elem_of_nil|done].
  - destruct (p y) as [[|]|ex] eqn:Hy; simpl.
    + split; [done|]. intros Hall.
      specialize (Hall y (list_elem_of_here _ _)). congruence.
    + destruct (Array_findIndexM p rest) as [j|ex] eqn:Hj; simpl.
      * specialize (Hnonneg rest j Hj). split.
        -- intros Heq.
           assert (j = -1) as ->
             by (destruct (decide (j = -1)); [done|injection Heq; lia]).
           intros x [->|Hx]%elem_of_cons; [done|]. by apply IH.
        -- intros Hall.
           assert (Hj' : Ok j = Ok (-1))
             by (apply IH; intros x Hx; apply Hall; by right).
           injection Hj' as ->. by rewrite decide_True.
      * split; [done|]. intros Hall.
        assert (Hrest : Throw ex = Ok (-1)); [|done].
        apply IH. intros x Hx. apply Hall. by right.
    + split; [done|]. intros Hall.
      specialize (Hall y (list_elem_of_here _ _)). congruence.
Qed.

(** A "removed" breakpoint that matches nothing: [findIndex] returns
    [-1] and the last stored breakpoint is deleted. *)
Lemma removedBreakpoint_no_match (b : Breakpoint) (stored : list Breakpoint) :
  Array_findIndexM (λ x, areBreakpointsEqual x b) stored = Ok (-1) →
  removedBreakpoint b stored = (removelast stored, Ok ()).
Proof.
  intros Hindex. unfold removedBreakpoint. rewrite Hindex.
  by rewrite Array_splice1_minus_one.
Qed.

(** A "changed" breakpoint that matches nothing: the last stored
    breakpoint is deleted, and the result is the remainder without its
    own last element, the new breakpoint, and the remainder again. *)
Lemma changedBreakpoint_no_match (b : Breakpoint) (stored : list Breakpoint) :
  Array_findIndexM (λ x, areBreakpointsEqual x b) stored = Ok (-1) →
  changedBreakpoint b stored
  = (removelast (removelast stored) ++ [b] ++ removelast stored, Ok ()).
Proof.
  intros Hindex. unfold changedBreakpoint. rewrite Hindex.
  rewrite Array_splice1_minus_one, Array_slice_minus_one.
  replace (-1 + 1) with 0 by lia. by rewrite Array_slice_all.
Qed.
End NoMatch.

(** C1 (the code departs from the claim).  A "removed" or "changed"
    breakpoint without an equal stored counterpart is claimed to leave the
    stored list of the current branch as it is.  On branch "main" holding
    two breakpoints, an event for a third one, equal to neither, makes
    [findIndex] return [-1], and [splice(-1, 1)] deletes the last stored
    breakpoint: the "removed" event leaves one breakpoint, the "changed"
    event leaves the new breakpoint followed by the first stored one. *)
Theorem getUpdatedBreakpoints_no_match_not_noop :
  let stored := [Samples.liveA; Samples.liveB] in
  let map0 := Samples.mapOf [{| name := "main"; breakpoints := stored |}] in
  let ext :=
    Samples.extensionOf [{| name := "main"; breakpoints := stored |}] false
                        stored in
  Forall (λ x, areBreakpointsEqual x Samples.liveC = Ok false) stored
  ∧ (getUpdatedBreakpoints (Samples.removedEvent Samples.liveC) false map0
                           "main").2
    = Ok (Some (Samples.mapOf
                  [{| name := "main"; breakpoints := [Samples.liveA] |}]))
  ∧ (getUpdatedBreakpoints (Samples.changedEvent Samples.liveC) false map0
                           "main").2
    = Ok (Some (Samples.mapOf
                  [{| name := "main";
                      breakpoints := [Samples.liveC; Samples.liveA] |}]))
  ∧ branchBreakpoints
      (onDidChangeBreakpoints (Samples.removedEvent Samples.liveC) ext).1
    = Samples.mapOf [{| name := "main"; breakpoints := [Samples.liveA] |}].
Proof.
  intros stored map0 ext. split.
  - by repeat constructor.
  - vm_compute. repeat split; reflexivity.
Qed.

(** A "changed" breakpoint that does match is put at the place of the
    stored one, and the stored breakpoint that followed it is lost: the
    slice after the new breakpoint is taken from the array that [splice]
    has already shortened. *)
Example changedBreakpoint_match_drops_next :
  changedBreakpoint Samples.liveA_off
                    [Samples.liveA; Samples.liveB; Samples.liveC]
  = ([Samples.liveA_off; Samples.liveC], Ok ()).
Proof. vm_compute. reflexivity. Qed.

(** ** The array methods with a callback that may throw *)

Section ArrayMethods.
Context {A B : Type}.

Lemma Array_mapM_Ok (f : A → Result B) (array : list A) (out : list B) :
  Array_mapM f array = Ok out → Forall2 (λ x y, f x = Ok y) array out.
Proof.
  revert out. induction array as [|x rest IH]; intros out; simpl.
  - intros [= <-]. constructor.
  - destruct (f x) as [y|e] eqn:Hy; simpl; [|done].
    destruct (Array_mapM f rest) as [ys|e] eqn:Hys; simpl; [|done].
    intros [= <-]. constructor; [done|by apply IH].
Qed.

Lemma Array_mapM_total (f : A → Result B) (array : list A) :
  (∀ x, x ∈ array → ∃ y, f x = Ok y) → ∃ out, Array_mapM f array = Ok out.
Proof.
  induction array as [|x rest IH]; intros Hall; simpl; [by eexists|].
  destruct (Hall x) as [y ->]; [by left|]. simpl.
  destruct IH as [ys ->]; [intros z Hz; apply Hall; by right|].
  simpl. by eexists.
Qed.

Lemma Array_findM_Some (p : A → Result bool) (array : list A) (x : A) :
  Array_findM p array = Ok (Some x) → x ∈ array ∧ p x = Ok true.
Proof.
  induction array as [|y rest IH]; simpl; [done|].
  destruct (p y) as [[|]|e] eqn:Hy; simpl; [| |done].
  - intros [= <-]. split; [by left|done].
  - intros Hrest. destruct (IH Hrest). split; [by right|done].
Qed.

Lemma Array_findM_None (p : A → Result bool) (array : list A) :
  Array_findM p array = Ok None ↔ ∀ x, x ∈ array → p x = Ok false.
Proof.
  induction array as [|y rest IH]; simpl.
  - split; [intros _ x Hx; by apply elem_of_nil in Hx|done].
  - destruct (p y) as [[|]|e] eqn:Hy; simpl.
    + split; [done|]. intros Hall.
      specialize (Hall y (list_elem_of_here _ _)). congruence.
    + rewrite IH. split.
      * intros Hall x [->|Hx]%elem_of_cons; [done|by apply Hall].
      * intros Hall x Hx. apply Hall. by right.
    + split; [done|]. intros Hall.
      specialize (Hall y (list_elem_of_here _ _)). congruence.
Qed.

Lemma Array_findM_total (p : A → Result bool) (array : list A) :
  (∀ x, x ∈ array → ∃ v, p x = Ok v) → ∃ found, Array_findM p array = Ok found.
Proof.
  induction array as [|y rest IH]; intros Hall; simpl; [by eexists|].
  destruct (Hall y) as [[|] ->]; [by left| |]; simpl; [by eexists|].
  apply IH. intros x Hx. apply Hall. by right.
Qed.

Lemma Array_filterM_Ok (test : A → Result bool) (array kept : list A) :
  Array_filterM test array = Ok kept →
  (∀ x, x ∈ kept ↔ x ∈ array ∧ test x = Ok true)
  ∧ (∀ x, x ∈ array → ∃ v, test x = Ok v).
Proof.
  revert kept. induction array as [|y rest IH]; intros kept; simpl.
  - intros [= <-]. split.
    + intros x. split; [by intros ?%elem_of_nil|by intros [?%elem_of_nil _]].
    + by intros x ?%elem_of_nil.
  - destruct (test y) as [keep|e] eqn:Hy; simpl; [|done].
    destruct (Array_filterM test rest) as [kept'|e] eqn:Hrest; simpl; [|done].
    intros [= <-]. destruct (IH kept' eq_refl) as [IHin IHtotal]. split.
    + intros x. destruct keep.
      * rewrite !elem_of_cons, IHin. split.
        -- intros [->|[? ?]]; [by split; [left|]|by split; [right|]].
        -- intros [[->|?] ?]; [by left|by right].
      * rewrite elem_of_cons, IHin. split.
        -- intros [? ?]; by split; [right|].
        -- intros [[->|?] ?]; [congruence|done].
    + intros x [->|Hx]%elem_of_cons; [by eexists|by apply IHtotal].
Qed.

Lemma Array_filterM_total (test : A → Result bool) (array : list A) :
  (∀ x, x ∈ array → ∃ v, test x = Ok v) →
  ∃ kept, Array_filterM test array = Ok kept.
Proof.
  induction array as [|y rest IH]; intros Hall; simpl; [by eexists|].
  destruct (Hall y) as [v ->]; [by left|]. simpl.
  destruct IH as [kept ->]; [intros x Hx; apply Hall; by right|].
  simpl. by eexists.
Qed.
End ArrayMethods.

(** ** Applying a branch: [setBreakpoints] *)

Section ApplyBranch.
Context `{HostAPI}.

Lemma getBreakpoint_instantiated (s n : Breakpoint) :
  getBreakpoint s = Ok n → instantiated n = true.
Proof.
  unfold getBreakpoint, instantiated.
  destruct s as [p r a|f a|[[p r]|] [f|] a]; simpl;
    try destruct (Uri_parse p); simpl;
    repeat case_decision; intros [= <-]; done.
Qed.

(** The constructors keep the attributes of the stored entry. *)
Lemma getBreakpoint_attributes (s n : Breakpoint) :
  getBreakpoint s = Ok n → attributes n = attributes s.
Proof.
  unfold getBreakpoint.
  destruct s as [p r a|f a|[[p r]|] [f|] a]; simpl;
    try destruct (Uri_parse p); simpl;
    repeat case_decision; intros [= <-]; done.
Qed.

Lemma getBreakpoint_constructible (s : Breakpoint) :
  constructible s = true ↔ ∃ n, getBreakpoint s = Ok n.
Proof.
  unfold getBreakpoint, constructible.
  destruct s as [p r a|f a|[[p r]|] [f|] a]; simpl;
    try destruct (Uri_parse p); simpl;
    repeat case_decision; split; try done; try (by eexists);
    intros [? [=]].
Qed.

Lemma instantiated_hostObject (b : Breakpoint) :
  instantiated b = true → hostObject b = true.
Proof. by destruct b as [| |[[]|] ? ?]. Qed.

Lemma areBreakpointsEqual_instantiated_refl (n : Breakpoint) :
  instantiated n = true → areBreakpointsEqual n n = Ok true.
Proof.
  destruct n as [p r a|f a|l f a]; simpl; [| |done]; intros _.
  - apply areBreakpointsEqual_source_refl.
  - by eapply areBreakpointsEqual_function_refl.
Qed.

(** Between host objects the comparison returns. *)
Lemma areBreakpointsEqual_host_total (a b : Breakpoint) :
  hostObject a = true → hostObject b = true →
  ∃ v, areBreakpointsEqual a b = Ok v.
Proof.
  destruct a as [p1 r1 a1|f1 a1|[[p1 r1]|] [f1|] a1],
           b as [p2 r2 a2|f2 a2|[[p2 r2]|] [f2|] a2]; simpl; try done;
    intros _ _; try (by eexists).
  rewrite areBreakpointsEqual_source. by eexists.
Qed.

Lemma hasNoEqual_true (others : list Breakpoint) (b : Breakpoint) :
  hasNoEqual others b = Ok true ↔
  ∀ x, x ∈ others → areBreakpointsEqual b x = Ok false.
Proof.
  rewrite <- Array_findM_None. unfold hasNoEqual.
  destruct (Array_findM _ others) as [[x|]|e]; simpl; split; try done.
Qed.

Lemma hasNoEqual_false (others : list Breakpoint) (b : Breakpoint) :
  hasNoEqual others b = Ok false →
  ∃ x, x ∈ others ∧ areBreakpointsEqual b x = Ok true.
Proof.
  unfold hasNoEqual.
  destruct (Array_findM _ others) as [[x|]|e] eqn:Hfound; simpl; try done.
  intros _. exists x. by apply Array_findM_Some in Hfound.
Qed.

Lemma hasNoEqual_total (others : list Breakpoint) (b : Breakpoint) :
  hostObject b = true → (∀ x, x ∈ others → hostObject x = true) →
  ∃ v, hasNoEqual others b = Ok v.
Proof.
  intros Hb Hothers. unfold hasNoEqual.
  destruct (Array_findM_total (λ x, areBreakpointsEqual b x) others)
    as [found ->]; [|simpl; by eexists].
  intros x Hx. apply areBreakpointsEqual_host_total; auto.
Qed.

(** The live set after [addBreakpoints(toAdd)] and
    [removeBreakpoints(toRemove)]. *)
Lemma elem_of_live_after (toAdd toRemove live : list Breakpoint) h :
  h ∈ removeBreakpoints toRemove (addBreakpoints toAdd live) ↔
  (h ∉ toRemove) ∧ ((h ∈ live) ∨ ((h ∈ toAdd) ∧ (h ∉ live))).
Proof.
  unfold removeBreakpoints, addBreakpoints.
  rewrite list_elem_of_filter, elem_of_app, list_elem_of_filter. tauto.
Qed.

(** What a completed [setBreakpoints] has computed, for a branch with
    stored breakpoints. *)
Lemma setBreakpoints_Ok_inv (ext ext' : Extension) stored :
  storedFor ext = Some stored → stored ≠ [] →
  setBreakpoints ext = (ext', Ok ()) →
  ∃ newBreakpoints toRemove toAdd,
    Array_mapM getBreakpoint stored = Ok newBreakpoints
    ∧ Array_filterM (hasNoEqual newBreakpoints) (debug_breakpoints ext)
      = Ok toRemove
    ∧ Array_filterM (hasNoEqual (debug_breakpoints ext)) newBreakpoints
      = Ok toAdd
    ∧ debug_breakpoints ext'
      = removeBreakpoints toRemove
          (addBreakpoints toAdd (debug_breakpoints ext)).
Proof.
  unfold storedFor, setBreakpoints, try_finally, setBreakpoints_body.
  simpl. intros -> Hne. destruct stored as [|s0 stored0]; [done|].
  fold (hasNoEqual (debug_breakpoints ext)).
  destruct (Array_mapM getBreakpoint (s0 :: stored0)) as [new|e] eqn:Hnew;
    simpl; [|intros [= _ ?]; done].
  fold (hasNoEqual new).
  destruct (Array_filterM (hasNoEqual new) (debug_breakpoints ext))
    as [toRemove|e] eqn:HtoRemove; simpl; [|intros [= _ ?]; done].
  destruct (Array_filterM (hasNoEqual (debug_breakpoints ext)) new)
    as [toAdd|e] eqn:HtoAdd; simpl; [|intros [= _ ?]; done].
  intros [= <-]. by exists new, toRemove, toAdd.
Qed.

(** And conversely: when the three computations return, so does
    [setBreakpoints]. *)
Lemma setBreakpoints_run (ext : Extension) stored new toRemove toAdd :
  storedFor ext = Some stored → stored ≠ [] →
  Array_mapM getBreakpoint stored = Ok new →
  Array_filterM (hasNoEqual new) (debug_breakpoints ext) = Ok toRemove →
  Array_filterM (hasNoEqual (debug_breakpoints ext)) new = Ok toAdd →
  setBreakpoints ext
  = (set_isBranchLocked false
       (set_debug_breakpoints
          (removeBreakpoints toRemove
             (addBreakpoints toAdd (debug_breakpoints ext)))
          (set_isBranchLocked true ext)),
     Ok ()).
Proof.
  unfold storedFor, setBreakpoints, try_finally, setBreakpoints_body.
  simpl. intros -> Hne Hnew HtoRemove HtoAdd.
  destruct stored as [|s0 stored0]; [done|].
  fold (hasNoEqual (debug_breakpoints ext)).
  rewrite Hnew. simpl. fold (hasNoEqual new).
  rewrite HtoRemove. simpl. rewrite HtoAdd. reflexivity.
Qed.
End ApplyBranch.

Section ApplyBranchProperties.
Context `{HostAPI}.

Lemma Array_mapM_elem_of {A B} (f : A → Result B) array out :
  Array_mapM f array = Ok out →
  ∀ y, y ∈ out ↔ ∃ x, x ∈ array ∧ f x = Ok y.
Proof.
  intros Hout%Array_mapM_Ok y.
  induction Hout as [|x y' array out Hxy Hrest IH].
  - split; [by intros ?%elem_of_nil|by intros (x & ?%elem_of_nil & _)].
  - rewrite elem_of_cons, IH. split.
    + intros [->|(x' & Hx' & Hy)]; [exists x; by split; [left|]|].
      exists x'. by split; [right|].
    + intros (x' & [->|Hx']%elem_of_cons & Hy); [left; congruence|].
      right. by exists x'.
Qed.

(** A live breakpoint with an equal materialised stored one is not
    removed. *)
Lemma kept_when_matched (stored new toRemove : list Breakpoint) live c s n :
  Array_mapM getBreakpoint stored = Ok new →
  Array_filterM (hasNoEqual new) live = Ok toRemove →
  s ∈ stored → getBreakpoint s = Ok n →
  areBreakpointsEqual c n = Ok true →
  c ∉ toRemove.
Proof.
  intros Hnew [HtoRemove _]%Array_filterM_Ok Hs Hn Hcn.
  rewrite HtoRemove, hasNoEqual_true. intros [_ Hnone].
  assert (Hin : n ∈ new).
  { apply (Array_mapM_elem_of _ _ _ Hnew). by exists s. }
  specialize (Hnone n Hin). congruence.
Qed.
End ApplyBranchProperties.

(** C3, as stated, fails.  Branch "main" stores one breakpoint at /a.ts,
    enabled; the host already has a breakpoint at the same place,
    disabled.  [setBreakpoints] completes, and the live breakpoint, which
    corresponds to the stored one, is still disabled. *)
Lemma setBreakpoints_attributes_counterexample :
  let stored := [Samples.storedA] in
  let ext :=
    Samples.extensionOf [{| name := "main"; breakpoints := stored |}] false
                        [Samples.liveA_off] in
  (@setBreakpoints Samples.host ext).2 = Ok ()
  ∧ ¬ (∀ h s n,
         h ∈ debug_breakpoints (@setBreakpoints Samples.host ext).1 →
         s ∈ stored → @getBreakpoint Samples.host s = Ok n →
         areBreakpointsEqual h n = Ok true →
         attributes h = attributes s).
Proof.
  split; [by vm_compute|]. intros Hclaim.
  specialize (Hclaim Samples.liveA_off Samples.storedA Samples.liveA).
  assert (Hneq : attributes Samples.liveA_off ≠ attributes Samples.storedA)
    by (by vm_compute).
  apply Hneq, Hclaim.
  - vm_compute. left.
  - left.
  - reflexivity.
  - by vm_compute.
Qed.

(** C3, amended.  After [setBreakpoints] has completed for a branch with a
    non-empty stored list, every live breakpoint is either one that was
    already live before the call and is equal to a materialised stored
    breakpoint, or one that the call added: a stored breakpoint as
    materialised by [getBreakpoint], which carries the attributes
    ([enabled], [condition], [hitCondition], [logMessage]) of the stored
    object.  A breakpoint that was already live and is equal to a stored
    one stays in the live set as the object it was, so its attributes are
    those it had in the host, not those of the stored object. *)
Theorem setBreakpoints_attributes `{HostAPI} (ext ext' : Extension) s0 rest :
  storedFor ext = Some (s0 :: rest) →
  setBreakpoints ext = (ext', Ok ()) →
  (∀ h, h ∈ debug_breakpoints ext' →
        (h ∈ debug_breakpoints ext
         ∧ ∃ s n, s ∈ s0 :: rest ∧ getBreakpoint s = Ok n
                  ∧ areBreakpointsEqual h n = Ok true)
        ∨ ((h ∉ debug_breakpoints ext)
           ∧ ∃ s, s ∈ s0 :: rest ∧ getBreakpoint s = Ok h
                  ∧ attributes h = attributes s))
  ∧ (∀ c s n, c ∈ debug_breakpoints ext →
              s ∈ s0 :: rest → getBreakpoint s = Ok n →
              areBreakpointsEqual c n = Ok true →
              c ∈ debug_breakpoints ext').
Proof.
  intros Hstored Hrun.
  destruct (setBreakpoints_Ok_inv ext ext' (s0 :: rest) Hstored)
    as (new & toRemove & toAdd & Hnew & HtoRemove & HtoAdd & ->);
    [done|done|].
  split.
  - intros h [Hkept [Hlive|[Hadded Hfresh]]]%elem_of_live_after.
    + left. split; [done|].
      apply Array_filterM_Ok in HtoRemove as [HtoRemove Htotal].
      destruct (Htotal h Hlive) as [[|] Htest].
      { exfalso. apply Hkept, HtoRemove. by split. }
      apply hasNoEqual_false in Htest as (n & Hn & Hhn).
      apply (Array_mapM_elem_of _ _ _ Hnew) in Hn as (s & Hs & Hsn).
      by exists s, n.
    + right. split; [done|].
      apply Array_filterM_Ok in HtoAdd as [HtoAdd _].
      apply HtoAdd in Hadded as [Hh _].
      apply (Array_mapM_elem_of _ _ _ Hnew) in Hh as (s & Hs & Hsh).
      exists s. repeat split; [done|done|].
      by apply getBreakpoint_attributes.
  - intros c s n Hc Hs Hn Hcn. apply elem_of_live_after. split; [|by left].
    by eapply kept_when_matched.
Qed.

Lemma setBreakpoints_attributes_witness :
  let ext :=
    Samples.extensionOf
      [{| name := "main";
          breakpoints := [Samples.storedA; Samples.storedB] |}] false
      [Samples.liveA_off; Samples.liveC] in
  let ext' :=
    Samples.extensionOf
      [{| name := "main";
          breakpoints := [Samples.storedA; Samples.storedB] |}] false
      [Samples.liveA_off; Samples.liveB] in
  (∀ h, h ∈ debug_breakpoints ext' →
        (h ∈ debug_breakpoints ext
         ∧ ∃ s n, s ∈ [Samples.storedA; Samples.storedB]
                  ∧ @getBreakpoint Samples.host s = Ok n
                  ∧ areBreakpointsEqual h n = Ok true)
        ∨ ((h ∉ debug_breakpoints ext)
           ∧ ∃ s, s ∈ [Samples.storedA; Samples.storedB]
                  ∧ @getBreakpoint Samples.host s = Ok h
                  ∧ attributes h = attributes s))
  ∧ (∀ c s n, c ∈ debug_breakpoints ext →
              s ∈ [Samples.storedA; Samples.storedB] →
              @getBreakpoint Samples.host s = Ok n →
              areBreakpointsEqual c n = Ok true →
              c ∈ debug_breakpoints ext').
Proof.
  intros ext ext'.
  apply (@setBreakpoints_attributes Samples.host ext ext'
           Samples.storedA [Samples.storedB]).
  - reflexivity.
  - vm_compute. reflexivity.
Defined.


Section ApplyBranchSets.
Context `{HostAPI}.


End ApplyBranchSets.



(** ** Insertion-ordered maps *)

Section JsMaps.
Context {V : Type}.
Implicit Types m : JsMap V.

Lemma Map_get_set key key' value m :
  Map_get key' (Map_set key value m)
  = if bool_decide (key = key') then Some value else Map_get key' m.
Proof.
  induction m as [|[k v] rest IH]; simpl.
  - by repeat case_decision.
  - destruct (decide (k = key)) as [->|Hk].
    + rewrite (bool_decide_true (key = key)) by done. simpl.
      by repeat case_decision.
    + rewrite (bool_decide_false (k = key)) by done. simpl. rewrite IH.
      repeat case_decision; congruence.
Qed.

Lemma Map_get_set_eq key value m :
  Map_get key (Map_set key value m) = Some value.
Proof. rewrite Map_get_set. by rewrite bool_decide_true. Qed.

Lemma Map_get_set_ne key key' value m :
  key ≠ key' → Map_get key' (Map_set key value m) = Map_get key' m.
Proof. intros. rewrite Map_get_set. by rewrite bool_decide_false. Qed.

Lemma Map_get_None key m : Map_get key m = None ↔ key ∉ m.*1.
Proof.
  induction m as [|[k v] rest IH]; simpl.
  - split; [intros _; apply not_elem_of_nil|done].
  - rewrite not_elem_of_cons, <- IH. case_decision; intuition congruence.
Qed.

Lemma Map_get_elem_of key value m :
  Map_get key m = Some value → (key, value) ∈ m.
Proof.
  induction m as [|[k v] rest IH]; simpl; [done|].
  case_decision.
  - intros [= <-]. subst. by left.
  - intros Hrest. right. by apply IH.
Qed.

Lemma Map_elem_of_get key value m :
  NoDup m.*1 → (key, value) ∈ m → Map_get key m = Some value.
Proof.
  induction m as [|[k v] rest IH]; simpl.
  - by intros _ ?%elem_of_nil.
  - intros [Hk Hrest]%NoDup_cons [[= -> ->]|Hin]%elem_of_cons.
    + by rewrite bool_decide_true.
    + rewrite bool_decide_false; [by apply IH|].
      intros ->. apply Hk. apply list_elem_of_fmap. by exists (key, value).
Qed.

Lemma Map_set_elem_of key value m entry :
  entry ∈ Map_set key value m → entry = (key, value) ∨ entry ∈ m.
Proof.
  induction m as [|[k v] rest IH]; simpl.
  - intros ->%list_elem_of_singleton. by left.
  - case_decision.
    + intros [->|Hin]%elem_of_cons; [left; by subst|right; by right].
    + intros [->|Hin]%elem_of_cons; [right; by left|].
      destruct (IH Hin); [by left|right; by right].
Qed.

Lemma Map_set_keys key value m :
  (Map_set key value m).*1
  = match Map_get key m with
    | Some _ => m.*1
    | None => m.*1 ++ [key]
    end.
Proof.
  induction m as [|[k v] rest IH]; csimpl; [done|].
  case_decision; csimpl; [done|]. rewrite IH.
  by destruct (Map_get key rest).
Qed.

Lemma Map_set_NoDup key value m :
  NoDup m.*1 → NoDup (Map_set key value m).*1.
Proof.
  intros Hm. rewrite Map_set_keys.
  destruct (Map_get key m) eqn:Hget; [done|].
  apply NoDup_app. split; [done|]. split; [|apply NoDup_singleton].
  intros k Hk ->%list_elem_of_singleton. by apply Map_get_None in Hget.
Qed.
End JsMaps.

(** ** The scan of the duplicate check *)

Section Scan.
Implicit Types maps : ScanMaps.

Lemma locationKey_functionKey (b : Breakpoint) key :
  locationKey b = Some key → functionKey b = None.
Proof.
  unfold locationKey, functionKey.
  by destruct (get_location b), (get_functionName b).
Qed.

Lemma locationKey_scannable (b : Breakpoint) key :
  locationKey b = Some key → scannable b = true.
Proof.
  unfold locationKey, scannable.
  destruct (get_location b) as [loc|], (get_functionName b); try done.
  by destruct (toStringRange (range loc)).
Qed.

Lemma functionKey_scannable (b : Breakpoint) func :
  functionKey b = Some func → scannable b = true.
Proof.
  unfold functionKey, scannable.
  by destruct (get_location b), (get_functionName b).
Qed.

(** One step of the scan, by the key of the breakpoint. *)
Lemma scanBreakpoint_location maps (b : Breakpoint) path rangeStr :
  locationKey b = Some (path, rangeStr) →
  scanBreakpoint maps b
  = Ok {| locationPathMap :=
            let rangeMap :=
              default [] (Map_get path (locationPathMap maps)) in
            Map_set path
              (Map_set rangeStr (bumped (Map_get rangeStr rangeMap) b)
                       rangeMap)
              (locationPathMap maps);
          functionNameMap := functionNameMap maps |}.
Proof.
  unfold locationKey, scanBreakpoint.
  destruct (get_location b) as [loc|], (get_functionName b); try done.
  destruct (toStringRange (range loc)) as [rs|]; simpl; [|done].
  intros [= <- <-]. do 2 f_equal.
  destruct (Map_get (uri_path loc) (locationPathMap maps)) as [rm|]; simpl.
  - by destruct (Map_get rs rm).
  - done.
Qed.

Lemma scanBreakpoint_function maps (b : Breakpoint) func :
  functionKey b = Some func →
  scanBreakpoint maps b
  = Ok {| locationPathMap := locationPathMap maps;
          functionNameMap :=
            Map_set func
              (default [] (Map_get func (functionNameMap maps)) ++ [b])
              (functionNameMap maps) |}.
Proof.
  unfold functionKey, scanBreakpoint.
  destruct (get_location b), (get_functionName b); try done.
  intros [= <-]. do 2 f_equal.
  by destruct (Map_get _ (functionNameMap maps)).
Qed.

Lemma scanBreakpoint_skip maps (b : Breakpoint) :
  locationKey b = None → functionKey b = None → scannable b = true →
  scanBreakpoint maps b = Ok maps.
Proof.
  unfold locationKey, functionKey, scannable, scanBreakpoint.
  destruct (get_location b) as [loc|], (get_functionName b); try done.
  by destruct (toStringRange (range loc)).
Qed.

Lemma scanBreakpoint_throw maps (b : Breakpoint) :
  scannable b = false → scanBreakpoint maps b = Throw TypeError.
Proof.
  unfold scannable, scanBreakpoint.
  destruct (get_location b) as [loc|], (get_functionName b); try done.
  destruct loc as [p [r|[p0 p1]]]; simpl; done.
Qed.

(** What a persisted blob revives to is scannable. *)
Lemma JsonObject_scannable location functionName a :
  scannable (JsonObject location functionName a) = true.
Proof. by destruct location as [[p [p0 p1]]|], functionName. Qed.

(** The scan returns exactly on the lists of scannable breakpoints. *)
Lemma scanBreakpoint_total maps (b : Breakpoint) :
  scannable b = true → ∃ maps', scanBreakpoint maps b = Ok maps'.
Proof.
  intros Hb.
  destruct (locationKey b) as [[p r]|] eqn:Hloc.
  { rewrite (scanBreakpoint_location _ _ p r) by done. by eexists. }
  destruct (functionKey b) as [f|] eqn:Hfun.
  { rewrite (scanBreakpoint_function _ _ f) by done. by eexists. }
  rewrite scanBreakpoint_skip by done. by eexists.
Qed.

Lemma scanBreakpoints_total maps (l : list Breakpoint) :
  forallb scannable l = true → ∃ maps', scanBreakpoints maps l = Ok maps'.
Proof.
  revert maps. induction l as [|b rest IH]; intros maps; simpl.
  - by eexists.
  - intros [Hb Hrest]%andb_true_iff.
    destruct (scanBreakpoint_total maps b Hb) as [maps1 ->]. simpl.
    by apply IH.
Qed.

Lemma scanBreakpoints_Ok_scannable maps maps' (l : list Breakpoint) :
  scanBreakpoints maps l = Ok maps' → forallb scannable l = true.
Proof.
  revert maps. induction l as [|b rest IH]; intros maps; simpl; [done|].
  destruct (scannable b) eqn:Hb.
  - destruct (scanBreakpoint maps b) as [maps1|e]; simpl; [|done].
    apply IH.
  - by rewrite scanBreakpoint_throw.
Qed.
End Scan.

Section ScanInvariants.
Implicit Types maps : ScanMaps.

Lemma UniqueKeys_empty : UniqueKeys emptyMaps.
Proof.
  split; simpl; [apply NoDup_nil_2| |apply NoDup_nil_2].
  by intros p rm ?%elem_of_nil.
Qed.

Lemma UniqueKeys_scanBreakpoint maps maps' (b : Breakpoint) :
  UniqueKeys maps → scanBreakpoint maps b = Ok maps' → UniqueKeys maps'.
Proof.
  intros [Hpaths Hranges Hfuncs] Hstep.
  destruct (locationKey b) as [[p r]|] eqn:Hloc.
  { rewrite (scanBreakpoint_location _ _ p r) in Hstep by done.
    injection Hstep as <-. split; simpl; [by apply Map_set_NoDup| |done].
    intros p' rm' [[= -> ->]|Hin]%Map_set_elem_of; [|by eapply Hranges].
    apply Map_set_NoDup.
    destruct (Map_get p (locationPathMap maps)) as [rm|] eqn:Hget; simpl.
    - eapply Hranges. by apply Map_get_elem_of.
    - apply NoDup_nil_2. }
  destruct (functionKey b) as [f|] eqn:Hfun.
  { rewrite (scanBreakpoint_function _ _ f) in Hstep by done.
    injection Hstep as <-. split; simpl; [done|done|].
    by apply Map_set_NoDup. }
  destruct (scannable b) eqn:Hb.
  - rewrite scanBreakpoint_skip in Hstep by done. by injection Hstep as <-.
  - by rewrite scanBreakpoint_throw in Hstep.
Qed.

Lemma UniqueKeys_scanBreakpoints maps maps' (l : list Breakpoint) :
  UniqueKeys maps → scanBreakpoints maps l = Ok maps' → UniqueKeys maps'.
Proof.
  revert maps. induction l as [|b rest IH]; intros maps Hmaps; simpl.
  - by intros [= <-].
  - destruct (scanBreakpoint maps b) as [maps1|e] eqn:Hstep; simpl; [|done].
    apply IH. by eapply UniqueKeys_scanBreakpoint.
Qed.

(** Writing one entry of [locationPathMap] through its range map. *)
Lemma getDuplicate_set path rangeStr path' rangeStr' d
    (m : JsMap (JsMap DuplicateBreakpoints)) :
  getDuplicate path' rangeStr'
    (Map_set path (Map_set rangeStr d (default [] (Map_get path m))) m)
  = if bool_decide ((path, rangeStr) = (path', rangeStr')) then Some d
    else getDuplicate path' rangeStr' m.
Proof.
  unfold getDuplicate. rewrite Map_get_set.
  destruct (decide (path = path')) as [<-|Hp].
  - rewrite (bool_decide_true (path = path)) by done. simpl.
    rewrite Map_get_set.
    destruct (decide (rangeStr = rangeStr')) as [<-|Hr].
    + by rewrite !bool_decide_true.
    + rewrite !bool_decide_false by congruence.
      by destruct (Map_get path m).
  - rewrite !bool_decide_false by congruence. done.
Qed.

(** The entry under a key after the scan of a list: the entries are
    written one after the other by the location breakpoints of that key,
    in scan order. *)
Lemma scanBreakpoints_getDuplicate maps maps' (l : list Breakpoint)
    path rangeStr :
  scanBreakpoints maps l = Ok maps' →
  getDuplicate path rangeStr (locationPathMap maps')
  = foldl (λ old b, Some (bumped old b))
          (getDuplicate path rangeStr (locationPathMap maps))
          (locationBreakpointsAt path rangeStr l).
Proof.
  unfold locationBreakpointsAt.
  revert maps. induction l as [|b rest IH]; intros maps; simpl.
  - by intros [= <-].
  - destruct (scanBreakpoint maps b) as [maps1|e] eqn:Hstep; simpl; [|done].
    intros Hrest. rewrite (IH _ Hrest). clear IH Hrest.
    rewrite filter_cons.
    destruct (locationKey b) as [[p r]|] eqn:Hloc.
    + rewrite (scanBreakpoint_location _ _ p r) in Hstep by done.
      injection Hstep as <-. simpl. rewrite getDuplicate_set.
      destruct (decide ((p, r) = (path, rangeStr))) as [[= -> ->]|Hne].
      * rewrite bool_decide_true by done.
        rewrite decide_True by done. simpl. do 3 f_equal.
        unfold getDuplicate.
        by destruct (Map_get path (locationPathMap maps)).
      * rewrite bool_decide_false by done.
        rewrite decide_False by congruence. done.
    + rewrite decide_False by done. f_equal.
      destruct (functionKey b) as [f|] eqn:Hfun.
      * rewrite (scanBreakpoint_function _ _ f) in Hstep by done.
        by injection Hstep as <-.
      * destruct (scannable b) eqn:Hb.
        -- rewrite scanBreakpoint_skip in Hstep by done.
           by injection Hstep as <-.
        -- by rewrite scanBreakpoint_throw in Hstep.
Qed.

(** The same for [functionNameMap]: the array under a name collects the
    function breakpoints of that name, in scan order. *)
Lemma scanBreakpoints_functionName maps maps' (l : list Breakpoint) func :
  scanBreakpoints maps l = Ok maps' →
  Map_get func (functionNameMap maps')
  = match functionBreakpointsAt func l with
    | [] => Map_get func (functionNameMap maps)
    | found =>
        Some (default [] (Map_get func (functionNameMap maps)) ++ found)
    end.
Proof.
  unfold functionBreakpointsAt.
  revert maps. induction l as [|b rest IH]; intros maps; simpl.
  - by intros [= <-].
  - destruct (scanBreakpoint maps b) as [maps1|e] eqn:Hstep; simpl; [|done].
    intros Hrest. rewrite (IH _ Hrest). clear IH Hrest.
    rewrite filter_cons.
    destruct (functionKey b) as [f|] eqn:Hfun.
    + rewrite (scanBreakpoint_function _ _ f) in Hstep by done.
      injection Hstep as <-. simpl. rewrite Map_get_set.
      destruct (decide (f = func)) as [->|Hne].
      * rewrite bool_decide_true by done. rewrite decide_True by done.
        simpl. destruct (filter _ rest); [done|].
        by rewrite <- app_assoc.
      * rewrite bool_decide_false by done.
        rewrite decide_False by congruence. done.
    + rewrite decide_False by done.
      assert (Hsame : functionNameMap maps1 = functionNameMap maps);
        [|by rewrite Hsame].
      destruct (locationKey b) as [[p r]|] eqn:Hloc.
      * rewrite (scanBreakpoint_location _ _ p r) in Hstep by done.
        by injection Hstep as <-.
      * destruct (scannable b) eqn:Hb.
        -- rewrite scanBreakpoint_skip in Hstep by done.
           by injection Hstep as <-.
        -- by rewrite scanBreakpoint_throw in Hstep.
Qed.

(** What the successive writes leave: the last breakpoint, and the
    number of writes. *)
Lemma foldl_bumped (found : list Breakpoint) :
  foldl (λ old b, Some (bumped old b)) None found
  = (λ b, {| breakpoint := b; count := length found |}) <$> last found.
Proof.
  induction found as [|b rest IH] using rev_ind; [done|].
  rewrite foldl_snoc, last_snoc, IH, length_app. simpl. f_equal.
  unfold bumped. f_equal.
  destruct (last rest) eqn:Hlast; simpl; [done|].
  apply last_None in Hlast as ->. done.
Qed.
End ScanInvariants.

Section Recreate.
Implicit Types maps : ScanMaps.

Lemma FiledByKey_empty : FiledByKey emptyMaps.
Proof. split; simpl; intros; by apply elem_of_nil in H. Qed.

Lemma FiledByKey_scanBreakpoint maps maps' (b : Breakpoint) :
  FiledByKey maps → scanBreakpoint maps b = Ok maps' → FiledByKey maps'.
Proof.
  intros [Hlocs Hfuncs] Hstep.
  destruct (locationKey b) as [[p r]|] eqn:Hloc.
  { rewrite (scanBreakpoint_location _ _ p r) in Hstep by done.
    injection Hstep as <-. split; simpl; [|done].
    intros p' rm' r' d' [[= -> ->]|Hin]%Map_set_elem_of; [|by eapply Hlocs].
    intros [[= -> ->]|Hin]%Map_set_elem_of; [done|].
    destruct (Map_get p (locationPathMap maps)) as [rm|] eqn:Hget;
      simpl in Hin; [|by apply elem_of_nil in Hin].
    eapply Hlocs; [|done]. by apply Map_get_elem_of. }
  destruct (functionKey b) as [f|] eqn:Hfun.
  { rewrite (scanBreakpoint_function _ _ f) in Hstep by done.
    injection Hstep as <-. split; simpl; [done|].
    intros f' arr' b' [[= -> ->]|Hin]%Map_set_elem_of; [|by eapply Hfuncs].
    intros [Hold| ->%list_elem_of_singleton]%elem_of_app; [|done].
    destruct (Map_get f (functionNameMap maps)) as [arr|] eqn:Hget;
      simpl in Hold; [|by apply elem_of_nil in Hold].
    eapply Hfuncs; [|done]. by apply Map_get_elem_of. }
  destruct (scannable b) eqn:Hb.
  - rewrite scanBreakpoint_skip in Hstep by done. by injection Hstep as <-.
  - by rewrite scanBreakpoint_throw in Hstep.
Qed.

Lemma FiledByKey_scanBreakpoints maps maps' (l : list Breakpoint) :
  FiledByKey maps → scanBreakpoints maps l = Ok maps' → FiledByKey maps'.
Proof.
  revert maps. induction l as [|b rest IH]; intros maps Hmaps; simpl.
  - by intros [= <-].
  - destruct (scanBreakpoint maps b) as [maps1|e] eqn:Hstep; simpl; [|done].
    apply IH. by eapply FiledByKey_scanBreakpoint.
Qed.

Lemma filter_none {A} (P : A → Prop) `{∀ x, Decision (P x)} (l : list A) :
  (∀ x, x ∈ l → ¬ P x) → filter P l = [].
Proof.
  induction l as [|x rest IH]; intros Hall; [done|].
  rewrite filter_cons, decide_False by (apply Hall; by left).
  apply IH. intros y Hy. apply Hall. by right.
Qed.

(** The breakpoints of one range map, filtered by a key. *)
Lemma locationBreakpointsAt_rangeMap path0 path rangeStr
    (rangeMap : JsMap DuplicateBreakpoints) :
  NoDup rangeMap.*1 →
  (∀ r d, (r, d) ∈ rangeMap → locationKey (breakpoint d) = Some (path0, r)) →
  locationBreakpointsAt path rangeStr
    (map (λ '(r, d), breakpoint d) rangeMap)
  = if bool_decide (path0 = path)
    then match Map_get rangeStr rangeMap with
         | Some d => [breakpoint d]
         | None => []
         end
    else [].
Proof.
  unfold locationBreakpointsAt.
  induction rangeMap as [|[r0 d0] rest IH]; csimpl.
  - intros _ _. by case_decision.
  - intros [Hr0 Hrest]%NoDup_cons Hfiled.
    rewrite filter_cons, IH;
      [|done|intros r d Hin; apply Hfiled; by right].
    rewrite (Hfiled r0 d0) by (by left).
    destruct (decide (path0 = path)) as [->|Hp].
    + rewrite !(bool_decide_true (path = path)) by done.
      destruct (decide (r0 = rangeStr)) as [->|Hr].
      * rewrite decide_True, bool_decide_true by done.
        apply Map_get_None in Hr0 as ->. done.
      * rewrite decide_False, bool_decide_false by congruence. done.
    + rewrite !(bool_decide_false (path0 = path)) by done.
      rewrite decide_False by congruence. done.
Qed.

Lemma locationBreakpointsAt_locationPart path rangeStr
    (m : JsMap (JsMap DuplicateBreakpoints)) :
  NoDup m.*1 →
  (∀ p rm, (p, rm) ∈ m → NoDup rm.*1) →
  (∀ p rm r d, (p, rm) ∈ m → (r, d) ∈ rm →
               locationKey (breakpoint d) = Some (p, r)) →
  locationBreakpointsAt path rangeStr (locationPart m)
  = match getDuplicate path rangeStr m with
    | Some d => [breakpoint d]
    | None => []
    end.
Proof.
  unfold locationPart, getDuplicate.
  induction m as [|[p0 rm0] rest IH]; csimpl; [done|].
  intros [Hp0 Hrest]%NoDup_cons Hranges Hfiled.
  unfold locationBreakpointsAt in *. rewrite filter_app.
  fold (locationBreakpointsAt path rangeStr
          (map (λ '(r, d), breakpoint d) rm0)).
  rewrite (locationBreakpointsAt_rangeMap p0);
    [|eapply Hranges; by left|intros r d Hin; eapply Hfiled; [by left|done]].
  rewrite IH; [|done|intros p rm Hin; eapply Hranges; by right
               |intros p rm r d Hin; eapply Hfiled; by right].
  destruct (decide (p0 = path)) as [->|Hp].
  - rewrite !bool_decide_true by done. simpl.
    apply Map_get_None in Hp0 as ->. simpl. by rewrite app_nil_r.
  - rewrite !bool_decide_false by done. done.
Qed.

Lemma functionBreakpointsAt_functionPart func (m : JsMap (list Breakpoint)) :
  NoDup m.*1 →
  (∀ f arr b, (f, arr) ∈ m → b ∈ arr → functionKey b = Some f) →
  functionBreakpointsAt func (functionPart m)
  = match Map_get func m with
    | Some (first :: _) => [first]
    | _ => []
    end.
Proof.
  unfold functionPart, functionBreakpointsAt.
  induction m as [|[f0 arr0] rest IH]; csimpl; [done|].
  intros [Hf0 Hrest]%NoDup_cons Hfiled.
  rewrite filter_app, IH;
    [|done|intros f arr b Hin; eapply Hfiled; by right].
  destruct (decide (f0 = func)) as [->|Hf].
  - rewrite bool_decide_true by done.
    apply Map_get_None in Hf0 as ->.
    destruct arr0 as [|first more]; [done|].
    rewrite filter_cons, decide_True; [done|].
    eapply Hfiled; by left.
  - rewrite bool_decide_false by done.
    destruct arr0 as [|first more]; [done|].
    rewrite filter_cons, decide_False; [done|].
    rewrite (Hfiled f0 (first :: more) first) by (by left). congruence.
Qed.

Lemma elem_of_locationPart (m : JsMap (JsMap DuplicateBreakpoints)) b :
  b ∈ locationPart m →
  ∃ p rm r d, (p, rm) ∈ m ∧ (r, d) ∈ rm ∧ b = breakpoint d.
Proof.
  unfold locationPart. rewrite list_elem_of_In, in_concat.
  intros (bs & Hbs & Hb).
  apply in_map_iff in Hbs as ([p rm] & <- & Hin).
  apply in_map_iff in Hb as ([r d] & <- & Hin').
  exists p, rm, r, d. by split_and!; [apply list_elem_of_In..|].
Qed.

Lemma elem_of_functionPart (m : JsMap (list Breakpoint)) b :
  b ∈ functionPart m → ∃ f arr, (f, arr) ∈ m ∧ b ∈ arr.
Proof.
  unfold functionPart. rewrite list_elem_of_In, in_concat.
  intros (bs & Hbs & Hb).
  apply in_map_iff in Hbs as ([f arr] & <- & Hin).
  exists f, arr. split; [by apply list_elem_of_In|].
  destruct arr as [|first more]; [done|].
  destruct Hb as [<-|[]]. by left.
Qed.
End Recreate.

Section CheckBranch.
Implicit Types maps : ScanMaps.

Lemma scanBreakpoints_emptyMaps (l : list Breakpoint) maps :
  scanBreakpoints emptyMaps l = Ok maps → UniqueKeys maps ∧ FiledByKey maps.
Proof.
  intros Hscan. split.
  - eapply UniqueKeys_scanBreakpoints; [apply UniqueKeys_empty|done].
  - eapply FiledByKey_scanBreakpoints; [apply FiledByKey_empty|done].
Qed.

(** [needsRecreate] is set exactly when an entry counts more than one
    breakpoint or an array holds more than one. *)
Lemma needsRecreate_true maps :
  UniqueKeys maps →
  needsRecreate maps = true ↔
  (∃ path rangeStr d,
     getDuplicate path rangeStr (locationPathMap maps) = Some d
     ∧ (1 < count d)%nat)
  ∨ (∃ func funcBreakpoints,
       Map_get func (functionNameMap maps) = Some funcBreakpoints
       ∧ (1 < length funcBreakpoints)%nat).
Proof.
  intros [Hpaths Hranges Hfuncs]. unfold needsRecreate.
  rewrite orb_true_iff, !existsb_exists. split.
  - intros [([p rm] & Hin & Hrm)|([f arr] & Hin & Harr)].
    + apply existsb_exists in Hrm as ([r d] & Hin' & Hd).
      apply bool_decide_eq_true in Hd.
      apply list_elem_of_In in Hin, Hin'.
      left. exists p, r, d. split; [|done]. unfold getDuplicate.
      rewrite (Map_elem_of_get p rm) by done. simpl.
      apply Map_elem_of_get; [by eapply Hranges|done].
    + apply bool_decide_eq_true in Harr. apply list_elem_of_In in Hin.
      right. exists f, arr. split; [|done]. by apply Map_elem_of_get.
  - intros [(p & r & d & Hget & Hd)|(f & arr & Hget & Harr)].
    + unfold getDuplicate in Hget.
      destruct (Map_get p (locationPathMap maps)) as [rm|] eqn:Hrm;
        simpl in Hget; [|done].
      left. exists (p, rm). split.
      { by apply list_elem_of_In, Map_get_elem_of. }
      apply existsb_exists. exists (r, d). split.
      { by apply list_elem_of_In, Map_get_elem_of. }
      by apply bool_decide_eq_true.
    + right. exists (f, arr). split.
      { by apply list_elem_of_In, Map_get_elem_of. }
      by apply bool_decide_eq_true.
Qed.

(** In terms of the list scanned: a key is shared by two breakpoints. *)
Lemma needsRecreate_duplicates (l : list Breakpoint) maps :
  scanBreakpoints emptyMaps l = Ok maps →
  needsRecreate maps = true ↔
  (∃ path rangeStr, (1 < length (locationBreakpointsAt path rangeStr l))%nat)
  ∨ (∃ func, (1 < length (functionBreakpointsAt func l))%nat).
Proof.
  intros Hscan. destruct (scanBreakpoints_emptyMaps l maps Hscan) as [Hu _].
  rewrite needsRecreate_true by done. split.
  - intros [(p & r & d & Hget & Hd)|(f & arr & Hget & Harr)].
    + left. exists p, r.
      rewrite (scanBreakpoints_getDuplicate _ _ l p r Hscan) in Hget.
      simpl in Hget. rewrite foldl_bumped in Hget.
      destruct (last _); simpl in Hget; [|done].
      injection Hget as <-. done.
    + right. exists f.
      rewrite (scanBreakpoints_functionName _ _ l f Hscan) in Hget.
      simpl in Hget.
      destruct (functionBreakpointsAt f l); [done|].
      injection Hget as <-. done.
  - intros [(p & r & Hlen)|(f & Hlen)].
    + left. exists p, r.
      rewrite (scanBreakpoints_getDuplicate _ _ l p r Hscan). simpl.
      rewrite foldl_bumped.
      destruct (last (locationBreakpointsAt p r l)) as [b|] eqn:Hlast.
      * eexists. split; [done|]. done.
      * apply last_None in Hlast. rewrite Hlast in Hlen. simpl in Hlen. lia.
    + right. exists f.
      rewrite (scanBreakpoints_functionName _ _ l f Hscan). simpl.
      destruct (functionBreakpointsAt f l) as [|b more] eqn:Hfound;
        [simpl in Hlen; lia|].
      eexists. split; [done|]. done.
Qed.

(** The location breakpoints of the rebuilt list under a key: the last
    one that the scanned list has under this key, if any. *)
Lemma recreateBreakpoints_location (l : list Breakpoint) maps path rangeStr :
  scanBreakpoints emptyMaps l = Ok maps →
  locationBreakpointsAt path rangeStr (recreateBreakpoints maps)
  = option_list (last (locationBreakpointsAt path rangeStr l)).
Proof.
  intros Hscan.
  destruct (scanBreakpoints_emptyMaps l maps Hscan)
    as [[Hpaths Hranges Hfuncs] [Hlocs Hnamed]].
  change (recreateBreakpoints maps)
    with (locationPart (locationPathMap maps)
          ++ functionPart (functionNameMap maps)).
  unfold locationBreakpointsAt at 1. rewrite filter_app.
  fold (locationBreakpointsAt path rangeStr
          (locationPart (locationPathMap maps))).
  rewrite locationBreakpointsAt_locationPart by done.
  rewrite (filter_none _ (functionPart _)).
  - rewrite app_nil_r.
    rewrite (scanBreakpoints_getDuplicate _ _ l path rangeStr Hscan).
    simpl. rewrite foldl_bumped. by destruct (last _).
  - intros b (f & arr & Hin & Hb)%elem_of_functionPart Hkey.
    apply locationKey_functionKey in Hkey.
    rewrite (Hnamed f arr b) in Hkey by done. done.
Qed.

(** The function breakpoints of the rebuilt list under a name: the first
    one that the scanned list has under this name, if any. *)
Lemma recreateBreakpoints_function (l : list Breakpoint) maps func :
  scanBreakpoints emptyMaps l = Ok maps →
  functionBreakpointsAt func (recreateBreakpoints maps)
  = option_list (hd_error (functionBreakpointsAt func l)).
Proof.
  intros Hscan.
  destruct (scanBreakpoints_emptyMaps l maps Hscan)
    as [[Hpaths Hranges Hfuncs] [Hlocs Hnamed]].
  change (recreateBreakpoints maps)
    with (locationPart (locationPathMap maps)
          ++ functionPart (functionNameMap maps)).
  unfold functionBreakpointsAt at 1. rewrite filter_app.
  fold (functionBreakpointsAt func (functionPart (functionNameMap maps))).
  rewrite functionBreakpointsAt_functionPart by done.
  rewrite (filter_none _ (locationPart _)).
  - simpl. rewrite (scanBreakpoints_functionName _ _ l func Hscan). simpl.
    by destruct (functionBreakpointsAt func l).
  - intros b (p & rm & r & d & Hin & Hin' & ->)%elem_of_locationPart Hkey.
    rewrite (locationKey_functionKey _ (p, r)) in Hkey; [done|].
    by eapply Hlocs.
Qed.

Lemma recreateBreakpoints_scannable (l : list Breakpoint) maps :
  scanBreakpoints emptyMaps l = Ok maps →
  forallb scannable (recreateBreakpoints maps) = true.
Proof.
  intros Hscan.
  destruct (scanBreakpoints_emptyMaps l maps Hscan) as [_ [Hlocs Hnamed]].
  apply forallb_forall. intros b Hb%list_elem_of_In.
  change (recreateBreakpoints maps)
    with (locationPart (locationPathMap maps)
          ++ functionPart (functionNameMap maps)) in Hb.
  apply elem_of_app in Hb as [Hb|Hb].
  - apply elem_of_locationPart in Hb as (p & rm & r & d & Hin & Hin' & ->).
    eapply locationKey_scannable. by eapply Hlocs.
  - apply elem_of_functionPart in Hb as (f & arr & Hin & Hb).
    eapply functionKey_scannable. by eapply Hnamed.
Qed.

(** A second check of a branch finds nothing to do. *)
Lemma checkBranch_idempotent (b : Branch) :
  checkBranch (checkBranch b).1 = ((checkBranch b).1, false).
Proof.
  unfold checkBranch at 2 3.
  destruct (scanBreakpoints _ (breakpoints b)) as [maps|e] eqn:Hscan.
  - destruct (needsRecreate maps) eqn:Hneeds; simpl.
    + unfold checkBranch. simpl.
      destruct (scanBreakpoints_total emptyMaps (recreateBreakpoints maps))
        as [maps2 Hscan2]; [by eapply recreateBreakpoints_scannable|].
      fold emptyMaps. rewrite Hscan2.
      destruct (needsRecreate maps2) eqn:Hneeds2; [|done].
      exfalso.
      apply (needsRecreate_duplicates _ _ Hscan2) in Hneeds2
        as [(p & r & Hlen)|(f & Hlen)].
      * rewrite (recreateBreakpoints_location _ _ _ _ Hscan) in Hlen.
        destruct (last _); simpl in Hlen; lia.
      * rewrite (recreateBreakpoints_function _ _ _ Hscan) in Hlen.
        destruct (hd_error _); simpl in Hlen; lia.
    + unfold checkBranch. by rewrite Hscan, Hneeds.
  - simpl. unfold checkBranch. by rewrite Hscan.
Qed.

(** After the check of a branch that the scan passes, no key has more
    than one breakpoint. *)
Lemma checkBranch_no_duplicates (b : Branch) :
  forallb scannable (breakpoints b) = true →
  (∀ path rangeStr,
     (length (locationBreakpointsAt path rangeStr
                (breakpoints (checkBranch b).1)) ≤ 1)%nat)
  ∧ (∀ func,
       (length (functionBreakpointsAt func (breakpoints (checkBranch b).1))
        ≤ 1)%nat).
Proof.
  intros Hscannable.
  destruct (scanBreakpoints_total emptyMaps (breakpoints b) Hscannable)
    as [maps Hscan].
  unfold checkBranch. fold emptyMaps. rewrite Hscan.
  destruct (needsRecreate maps) eqn:Hneeds; simpl.
  - split.
    + intros p r. rewrite (recreateBreakpoints_location _ _ _ _ Hscan).
      destruct (last _); simpl; lia.
    + intros f. rewrite (recreateBreakpoints_function _ _ _ Hscan).
      destruct (hd_error _); simpl; lia.
  - split.
    + intros p r.
      destruct (decide (1 < length (locationBreakpointsAt p r (breakpoints b)))%nat)
        as [Hlen|Hlen]; [|lia].
      assert (needsRecreate maps = true); [|congruence].
      apply (needsRecreate_duplicates _ _ Hscan). left. by exists p, r.
    + intros f.
      destruct (decide (1 < length (functionBreakpointsAt f (breakpoints b)))%nat)
        as [Hlen|Hlen]; [|lia].
      assert (needsRecreate maps = true); [|congruence].
      apply (needsRecreate_duplicates _ _ Hscan). right. by exists f.
Qed.
End CheckBranch.

(** C2, as stated, fails.  Branch "dev" stores two breakpoints at the same
    path and range, the first enabled and the second disabled.  The check
    rebuilds the list, and the breakpoint it retains under that key is the
    second one, not the first one encountered. *)
Lemma checkBranch_keeps_first_counterexample :
  let b :=
    {| name := "dev";
       breakpoints := [Samples.storedA; Samples.storedA_off] |} in
  locationBreakpointsAt "/a.ts" "[(1, 0), (1, 5)]" (breakpoints b)
  = [Samples.storedA; Samples.storedA_off]
  ∧ (checkBranch b).2 = true
  ∧ locationBreakpointsAt "/a.ts" "[(1, 0), (1, 5)]"
      (breakpoints (checkBranch b).1)
    ≠ [Samples.storedA].
Proof.
  split; [by vm_compute|]. split; [by vm_compute|].
  vm_compute. intros [=].
Qed.

(** C2, amended.  In the duplicate check, for every branch that the scan
    passes and every (path, stringified range) key that occurs more than
    once among its location breakpoints, the branch is rebuilt and the
    breakpoint retained under that key in the rebuilt list is the last one
    encountered in scan order; the earlier ones are counted (the entry of
    the key counts all of them) and discarded. *)
Theorem checkBranch_keeps_last (b : Branch) path rangeStr first between
    last_ :
  forallb scannable (breakpoints b) = true →
  locationBreakpointsAt path rangeStr (breakpoints b)
  = first :: between ++ [last_] →
  (checkBranch b).2 = true
  ∧ locationBreakpointsAt path rangeStr (breakpoints (checkBranch b).1)
    = [last_]
  ∧ ∃ maps,
      scanBreakpoints emptyMaps (breakpoints b) = Ok maps
      ∧ getDuplicate path rangeStr (locationPathMap maps)
        = Some {| breakpoint := last_; count := 2 + length between |}.
Proof.
  intros Hscannable Hfound.
  destruct (scanBreakpoints_total emptyMaps (breakpoints b) Hscannable)
    as [maps Hscan].
  assert (Hlast : last (locationBreakpointsAt path rangeStr (breakpoints b))
                  = Some last_).
  { rewrite Hfound. apply (last_snoc last_ (first :: between)). }
  assert (Hneeds : needsRecreate maps = true).
  { apply (needsRecreate_duplicates _ _ Hscan). left. exists path, rangeStr.
    rewrite Hfound. simpl. rewrite length_app. simpl. lia. }
  unfold checkBranch. fold emptyMaps. rewrite Hscan, Hneeds. simpl.
  split; [done|]. split.
  - rewrite (recreateBreakpoints_location _ _ _ _ Hscan). by rewrite Hlast.
  - exists maps. split; [done|].
    rewrite (scanBreakpoints_getDuplicate _ _ _ path rangeStr Hscan). simpl.
    rewrite foldl_bumped, Hlast, Hfound. simpl. do 2 f_equal.
    rewrite length_app. simpl. lia.
Qed.

Lemma checkBranch_keeps_last_witness :
  let b :=
    {| name := "dev";
       breakpoints :=
         [Samples.storedA; Samples.storedB; Samples.storedA;
          Samples.storedA_off] |} in
  (checkBranch b).2 = true
  ∧ locationBreakpointsAt "/a.ts" "[(1, 0), (1, 5)]"
      (breakpoints (checkBranch b).1)
    = [Samples.storedA_off]
  ∧ ∃ maps,
      scanBreakpoints emptyMaps (breakpoints b) = Ok maps
      ∧ getDuplicate "/a.ts" "[(1, 0), (1, 5)]" (locationPathMap maps)
        = Some {| breakpoint := Samples.storedA_off; count := 3 |}.
Proof.
  intros b.
  apply (checkBranch_keeps_last b "/a.ts" "[(1, 0), (1, 5)]"
           Samples.storedA [Samples.storedA] Samples.storedA_off).
  - reflexivity.
  - vm_compute. reflexivity.
Defined.

(** ** Idempotence of the duplicate check *)

Lemma checkBranches_idempotent (branches : list Branch) (recreated : bool) :
  checkBranches (checkBranches branches recreated).1 false
  = ((checkBranches branches recreated).1, false).
Proof.
  revert recreated. induction branches as [|b rest IH]; intros recreated.
  - reflexivity.
  - simpl. destruct (checkBranch b) as [b' changed] eqn:Hb.
    specialize (IH (changed || recreated)).
    destruct (checkBranches rest (changed || recreated)) as [rest' r].
    simpl in *.
    pose proof (checkBranch_idempotent b) as Hidem.
    rewrite Hb in Hidem. simpl in Hidem. rewrite Hidem. simpl.
    by rewrite IH.
Qed.

(** The map a load returns: a version that is present, and the branches
    as the loop over them leaves them. *)
Lemma getWorkspaceBreakpoints_loaded (context0 : ExtensionContext) :
  ∃ found,
    falsy_string (version found) = false
    ∧ (getWorkspaceBreakpoints context0).2.1
      = {| version := version found;
           branch := (checkBranches (branch found) false).1 |}.
Proof.
  unfold getWorkspaceBreakpoints.
  set (stored := match workspaceState context0 !! breakpointMapKeyName with
                 | Some stored => stored
                 | None => getInitialBranchBreakpoints context0
                 end).
  destruct (falsy_string (version stored)) eqn:Hfalsy; simpl.
  - exists {| version := Some "0.0.2"; branch := [] |}. by split.
  - exists stored. split; [done|].
    by destruct (checkBranches (branch stored) false).
Qed.

(** C5.  The duplicate check is idempotent: once the map returned by a
    first run of [getWorkspaceBreakpoints] is what the store holds, a
    second run returns the same map, every branch with the same breakpoint
    list, and reports that nothing was recreated; the loop over the
    branches alone, run on the branches of that map, likewise changes
    none of them. *)
Theorem getWorkspaceBreakpoints_idempotent (context0 : ExtensionContext) :
  let context1 := (getWorkspaceBreakpoints context0).1 in
  let loaded := (getWorkspaceBreakpoints context0).2.1 in
  let persisted :=
    workspaceState_update breakpointMapKeyName (Some loaded) context1 in
  getWorkspaceBreakpoints persisted = (persisted, (loaded, false))
  ∧ checkBranches (branch loaded) false = (branch loaded, false).
Proof.
  intros context1 loaded persisted.
  destruct (getWorkspaceBreakpoints_loaded context0)
    as (found & Hversion & Hloaded).
  fold loaded in Hloaded.
  assert (Hbranches : checkBranches (branch loaded) false
                      = (branch loaded, false)).
  { rewrite Hloaded. simpl. apply checkBranches_idempotent. }
  split; [|done].
  unfold getWorkspaceBreakpoints, persisted. simpl.
  rewrite lookup_insert_eq.
  replace (falsy_string (version loaded)) with false
    by (by rewrite Hloaded).
  rewrite Hbranches. by destruct loaded.
Qed.

(** ** More on the value model of [types.ts] *)

(** X1.  [areRangesEqual] holds exactly on equal ranges, and so does
    [areLineCharsEqual] on positions: both are equivalence relations. *)
Theorem areRangesEqual_iff (range1 range2 : JsonRange)
    (lineChar1 lineChar2 : JsonPosition) :
  (areRangesEqual range1 range2 = true ↔ range1 = range2)
  ∧ (areLineCharsEqual lineChar1 lineChar2 = true ↔ lineChar1 = lineChar2).
Proof.
  rewrite areRangesEqual_spec, areLineCharsEqual_spec.
  split; apply bool_decide_eq_true.
Qed.

(** X2.  [toJsonRange] loses nothing of a host range: it returns, and the
    JSON forms of two host ranges are [areRangesEqual] exactly when the
    ranges have the same start and the same end. *)
Theorem toJsonRange_faithful (r1 r2 : Range) :
  ∃ range1 range2,
    toJsonRange (RangeObject r1) = Ok range1
    ∧ toJsonRange (RangeObject r2) = Ok range2
    ∧ (areRangesEqual range1 range2 = true ↔ r1 = r2).
Proof.
  eexists _, _. split; [reflexivity|]. split; [reflexivity|].
  rewrite areRangesEqual_spec, bool_decide_eq_true.
  destruct r1 as [[l1 c1] [l1' c1']], r2 as [[l2 c2] [l2' c2']]; simpl.
  unfold toJsonLineChar; simpl. split; intros [=]; by subst.
Qed.

Section Stringify.
Lemma append_nil (s : string) : "" +:+ s = s.
Proof. reflexivity. Qed.

Lemma append_cons (c : ascii) (s1 s2 : string) :
  String c s1 +:+ s2 = String c (s1 +:+ s2).
Proof. reflexivity. Qed.

Lemma append_assoc (s1 s2 s3 : string) :
  (s1 +:+ s2) +:+ s3 = s1 +:+ (s2 +:+ s3).
Proof.
  induction s1 as [|c s1 IH]; [done|]. rewrite !append_cons. by f_equal.
Qed.

Lemma allDigits_app (s1 s2 : string) :
  allDigits (s1 +:+ s2) = allDigits s1 && allDigits s2.
Proof.
  induction s1 as [|c s1 IH]; [done|]. rewrite append_cons. simpl.
  rewrite <- andb_assoc. by f_equal.
Qed.

Lemma pretty_N_char_isDigit (x : N) : isDigit (pretty_N_char x) = true.
Proof. unfold pretty_N_char. by repeat case_match. Qed.

(** The digits [pretty_N_go] puts in front of its accumulator. *)
Lemma pretty_N_go_digits (x : N) :
  ∃ d, allDigits d = true ∧ ∀ s, pretty_N_go x s = d +:+ s.
Proof.
  induction (N.lt_wf_0 x) as [x _ IH].
  destruct (decide (x = 0)%N) as [->|Hx].
  - exists "". split; [done|]. intros s. by rewrite pretty_N_go_0, append_nil.
  - destruct (IH (x `div` 10)%N) as (d & Hd & Hgo).
    { apply N.div_lt; lia. }
    exists (d +:+ String (pretty_N_char (x `mod` 10)) "").
    split.
    + rewrite allDigits_app, Hd. simpl.
      by rewrite pretty_N_char_isDigit.
    + intros s. rewrite pretty_N_go_step by lia.
      by rewrite Hgo, append_assoc, append_cons, append_nil.
Qed.

Lemma pretty_N_allDigits (x : N) : allDigits (pretty x) = true.
Proof.
  unfold pretty, pretty_N. destruct (decide (x = 0)%N); [done|].
  destruct (pretty_N_go_digits x) as (d & Hd & Hgo).
  rewrite Hgo, allDigits_app, Hd. done.
Qed.

(** Two runs of digits, each followed by something that is no digit. *)
Lemma digits_split (d1 d2 s1 s2 : string) :
  allDigits d1 = true → allDigits d2 = true →
  startsWithoutDigit s1 = true → startsWithoutDigit s2 = true →
  d1 +:+ s1 = d2 +:+ s2 → d1 = d2 ∧ s1 = s2.
Proof.
  revert d2. induction d1 as [|c1 d1 IH]; intros [|c2 d2];
    rewrite ?append_nil, ?append_cons; simpl.
  - done.
  - intros _ [Hc2 _]%andb_true_iff Hs1 _ ->. simpl in Hs1.
    by rewrite Hc2 in Hs1.
  - intros [Hc1 _]%andb_true_iff _ _ Hs2 <-. simpl in Hs2.
    by rewrite Hc1 in Hs2.
  - intros [_ Hd1]%andb_true_iff [_ Hd2]%andb_true_iff Hs1 Hs2 [= -> Heq].
    destruct (IH d2 Hd1 Hd2 Hs1 Hs2 Heq) as [-> ->]. done.
Qed.

Lemma pretty_N_split (x y : N) (s1 s2 : string) :
  startsWithoutDigit s1 = true → startsWithoutDigit s2 = true →
  pretty x +:+ s1 = pretty y +:+ s2 → x = y ∧ s1 = s2.
Proof.
  intros Hs1 Hs2 Heq.
  destruct (digits_split _ _ _ _ (pretty_N_allDigits x) (pretty_N_allDigits y)
              Hs1 Hs2 Heq) as [Hxy ->].
  split; [|done]. by apply (inj pretty).
Qed.

Lemma toStringPosition_split (p q : JsonPosition) (s1 s2 : string) :
  toStringPosition p +:+ s1 = toStringPosition q +:+ s2 → p = q ∧ s1 = s2.
Proof.
  unfold toStringPosition. destruct p as [l1 c1], q as [l2 c2]; simpl.
  rewrite !append_assoc, !append_cons, !append_nil. intros [= Heq].
  apply pretty_N_split in Heq as [-> [= Heq]]; [|done..].
  apply pretty_N_split in Heq as [-> [= ->]]; [|done..].
  done.
Qed.

Lemma toStringRange_array (p0 p1 : JsonPosition) :
  toStringRange (RangeArray (p0, p1))
  = Ok (String "[" (toStringPosition p0
                    +:+ String "," (String " " (toStringPosition p1 +:+ "]")))).
Proof. reflexivity. Qed.

Lemma toStringRange_inj (range1 range2 : JsonRange) (key : string) :
  toStringRange (RangeArray range1) = Ok key →
  toStringRange (RangeArray range2) = Ok key →
  range1 = range2.
Proof.
  destruct range1 as [p0 p1], range2 as [q0 q1].
  rewrite !toStringRange_array. intros H1 H2.
  assert (Heq : toStringPosition p0
                +:+ String "," (String " " (toStringPosition p1 +:+ "]"))
                = toStringPosition q0
                  +:+ String "," (String " " (toStringPosition q1 +:+ "]")))
    by congruence.
  apply toStringPosition_split in Heq as [-> Heq].
  assert (Heq' : toStringPosition p1 +:+ "]" = toStringPosition q1 +:+ "]")
    by congruence.
  by apply toStringPosition_split in Heq' as [-> _].
Qed.
End Stringify.

(** X3.  [toStringRange] is injective on the ranges it accepts: two JSON
    ranges with the same string are the same range, so the keys of the
    duplicate check tell ranges apart exactly as [areRangesEqual] does. *)
Theorem toStringRange_injective (range1 range2 : JsonRange) (key : string) :
  toStringRange (RangeArray range1) = Ok key →
  toStringRange (RangeArray range2) = Ok key →
  range1 = range2 ∧ areRangesEqual range1 range2 = true.
Proof.
  intros H1 H2. rewrite (toStringRange_inj range1 range2 key H1 H2).
  split; [done|]. rewrite areRangesEqual_spec. by apply bool_decide_eq_true.
Qed.

Lemma toStringRange_injective_witness :
  (Samples.pos 1 0, Samples.pos 1 5) = (Samples.pos 1 0, Samples.pos 1 5)
  ∧ areRangesEqual (Samples.pos 1 0, Samples.pos 1 5)
                   (Samples.pos 1 0, Samples.pos 1 5) = true.
Proof.
  apply (toStringRange_injective _ _ "[(1, 0), (1, 5)]"); reflexivity.
Defined.

(** X4.  Two location breakpoints of a stored list are filed under the
    same key by the duplicate check exactly when they have the same path
    and the same range. *)
Theorem locationKey_same_iff (a b : Breakpoint) keyA keyB :
  locationKey a = Some keyA → locationKey b = Some keyB →
  keyA = keyB ↔
  ∃ locationA locationB,
    get_location a = Some locationA ∧ get_location b = Some locationB
    ∧ uri_path locationA = uri_path locationB
    ∧ range locationA = range locationB.
Proof.
  unfold locationKey.
  destruct (get_location a) as [[pa ra]|] eqn:Ha; [|done].
  destruct (get_location b) as [[pb rb]|] eqn:Hb;
    [|by destruct (get_functionName a)].
  destruct (get_functionName a), (get_functionName b); try done; simpl.
  destruct (toStringRange ra) as [sa|] eqn:Hsa; [|done].
  destruct (toStringRange rb) as [sb|] eqn:Hsb; [|done].
  intros [= <-] [= <-]. split.
  - intros [= -> ->]. exists {| uri_path := pb; range := ra |},
                             {| uri_path := pb; range := rb |}.
    repeat split; simpl.
    destruct ra as [ra|ra], rb as [rb|rb]; try done.
    by rewrite (toStringRange_inj ra rb sb Hsa Hsb).
  - intros (la & lb & [= <-] & [= <-] & Hpath & Hrange). simpl in *.
    subst. congruence.
Qed.

Lemma locationKey_same_iff_witness :
  ("/a.ts", "[(1, 0), (1, 5)]") = ("/a.ts", "[(1, 0), (1, 5)]") ↔
  ∃ locationA locationB,
    get_location Samples.storedA = Some locationA
    ∧ get_location Samples.storedA_off = Some locationB
    ∧ uri_path locationA = uri_path locationB
    ∧ range locationA = range locationB.
Proof.
  apply (locationKey_same_iff Samples.storedA Samples.storedA_off);
    reflexivity.
Defined.

(** ** More on [areBreakpointsEqual] *)

(** X5.  [areBreakpointsEqual] is symmetric, exception included: swapping
    the arguments gives the same value or the same exception. *)
Theorem areBreakpointsEqual_symmetric (breakpoint1 breakpoint2 : Breakpoint) :
  areBreakpointsEqual breakpoint1 breakpoint2
  = areBreakpointsEqual breakpoint2 breakpoint1.
Proof. apply areBreakpointsEqual_comm. Qed.

(** X6.  [areBreakpointsEqual] does not look at [enabled], [condition],
    [hitCondition] or [logMessage]: with other values in these fields on
    either side the outcome is the same. *)
Theorem areBreakpointsEqual_ignores_attributes
    (breakpoint1 breakpoint2 : Breakpoint) (a1 a2 : Attributes) :
  areBreakpointsEqual (with_attributes a1 breakpoint1)
                      (with_attributes a2 breakpoint2)
  = areBreakpointsEqual breakpoint1 breakpoint2.
Proof.
  by destruct breakpoint1 as [? ? ?|? ?|[[]|] ? ?],
              breakpoint2 as [? ? ?|? ?|[[]|] ? ?].
Qed.

(** X7.  [areBreakpointsEqual] returns [true] in two cases only: on two
    instances of [SourceBreakpoint] with the same path and the same range,
    and on two breakpoints, not both with a location, that carry the same
    function name. *)
Theorem areBreakpointsEqual_true_iff (breakpoint1 breakpoint2 : Breakpoint) :
  areBreakpointsEqual breakpoint1 breakpoint2 = Ok true ↔
  (∃ path r a1 a2,
     breakpoint1 = SourceBreakpoint path r a1
     ∧ breakpoint2 = SourceBreakpoint path r a2)
  ∨ (isSourceBreakpoint breakpoint1 && isSourceBreakpoint breakpoint2 = false
     ∧ ∃ functionName,
         get_functionName breakpoint1 = Some functionName
         ∧ get_functionName breakpoint2 = Some functionName).
Proof.
  split.
  - unfold areBreakpointsEqual, isSourceBreakpoint, isFunctionBreakpoint.
    destruct breakpoint1 as [p1 [s1 e1] a1|f1 a1|[[p1 r1]|] [f1|] a1],
             breakpoint2 as [p2 [s2 e2] a2|f2 a2|[[p2 r2]|] [f2|] a2];
      simpl; repeat (first [case_decision | progress simpl]);
      intros Htrue; try discriminate; simplify_eq;
      try match goal with
          | Hsame : ¬ (?x ≠ ?y) |- _ => apply dec_stable in Hsame; subst
          end;
      first [left; by eexists _, _, _, _
            |right; split; [done|]; by eexists
            |exfalso; tauto].
  - intros [(p & r & a1 & a2 & -> & ->)|(Hnot & f & Hf1 & Hf2)].
    + rewrite areBreakpointsEqual_source. by rewrite bool_decide_true.
    + unfold areBreakpointsEqual, isFunctionBreakpoint.
      rewrite Hnot, Hf1, Hf2. simpl. by rewrite !bool_decide_true.
Qed.

(** X8.  The only exception of [areBreakpointsEqual] is the [TypeError] of
    [toJsonRange], and it is thrown exactly on two breakpoints with a
    location and the same path that are not both instances of
    [SourceBreakpoint]; in particular never when the paths differ, and
    never when one side has no location. *)
Theorem areBreakpointsEqual_throws_exactly
    (breakpoint1 breakpoint2 : Breakpoint) (ex : Exn) :
  areBreakpointsEqual breakpoint1 breakpoint2 = Throw ex ↔
  ex = TypeError
  ∧ ∃ location1 location2,
      get_location breakpoint1 = Some location1
      ∧ get_location breakpoint2 = Some location2
      ∧ uri_path location1 = uri_path location2
      ∧ instanceof_SourceBreakpoint breakpoint1
        && instanceof_SourceBreakpoint breakpoint2 = false.
Proof.
  split.
  - intros Hthrow. split; [|apply areBreakpointsEqual_throws; by exists ex].
    revert Hthrow.
    unfold areBreakpointsEqual, isSourceBreakpoint, isFunctionBreakpoint.
    destruct breakpoint1 as [p1 [s1 e1] a1|f1 a1|[[p1 r1]|] [f1|] a1],
             breakpoint2 as [p2 [s2 e2] a2|f2 a2|[[p2 r2]|] [f2|] a2];
      simpl; repeat (first [case_decision | progress simpl]); congruence.
  - intros [-> Hcond].
    apply areBreakpointsEqual_throws in Hcond as [ex Hex]. revert Hex.
    unfold areBreakpointsEqual, isSourceBreakpoint, isFunctionBreakpoint.
    destruct breakpoint1 as [p1 [s1 e1] a1|f1 a1|[[p1 r1]|] [f1|] a1],
             breakpoint2 as [p2 [s2 e2] a2|f2 a2|[[p2 r2]|] [f2|] a2];
      simpl; repeat (first [case_decision | progress simpl]); congruence.
Qed.

(** ** More on [getBreakpoint] and [setBreakpoints] *)

(** X9.  What [getBreakpoint] returns is an instance of a host class with
    the attributes of its argument, and [getBreakpoint] maps it to itself.
    An entry with a location becomes a [SourceBreakpoint], also when it
    has a function name, which is then dropped; an entry without location
    keeps its function name. *)
Theorem getBreakpoint_materialises `{HostAPI} (s n : Breakpoint) :
  getBreakpoint s = Ok n →
  instantiated n = true
  ∧ attributes n = attributes s
  ∧ getBreakpoint n = Ok n
  ∧ (get_location s ≠ None →
     instanceof_SourceBreakpoint n = true ∧ get_functionName n = None)
  ∧ (get_location s = None → get_functionName n = get_functionName s).
Proof.
  unfold getBreakpoint, instantiated.
  destruct s as [p r a|f a|[[p r]|] [f|] a]; simpl;
    try destruct (Uri_parse p); simpl;
    repeat case_decision; intros [= <-]; done.
Qed.

Lemma getBreakpoint_materialises_witness :
  instantiated Samples.liveA = true
  ∧ attributes Samples.liveA = attributes Samples.storedA
  ∧ @getBreakpoint Samples.host Samples.liveA = Ok Samples.liveA
  ∧ (get_location Samples.storedA ≠ None →
     instanceof_SourceBreakpoint Samples.liveA = true
     ∧ get_functionName Samples.liveA = None)
  ∧ (get_location Samples.storedA = None →
     get_functionName Samples.liveA = get_functionName Samples.storedA).
Proof.
  apply (@getBreakpoint_materialises Samples.host Samples.storedA).
  reflexivity.
Defined.

(** X10.  [setBreakpoints] never touches the branch map, the head or the
    store.  When the branch of the head is absent or stores no breakpoint
    it changes nothing at all, and when it throws the live breakpoints of
    the host are those it found. *)
Theorem setBreakpoints_frame `{HostAPI} (ext : Extension) :
  branchBreakpoints (setBreakpoints ext).1 = branchBreakpoints ext
  ∧ head (setBreakpoints ext).1 = head ext
  ∧ context (setBreakpoints ext).1 = context ext
  ∧ match storedFor ext with
    | Some (_ :: _) => True
    | _ => setBreakpoints ext = (set_isBranchLocked false ext, Ok ())
    end
  ∧ match (setBreakpoints ext).2 with
    | Throw _ => debug_breakpoints (setBreakpoints ext).1
                 = debug_breakpoints ext
    | Ok _ => True
    end.
Proof.
  unfold setBreakpoints, try_finally, setBreakpoints_body, storedFor.
  simpl.
  destruct (breakpoints <$> Array_find _ _) as [[|s0 stored]|]; simpl;
    try done.
  match goal with
  | |- context [match ?computed with Ok _ => _ | Throw _ => _ end] =>
      destruct computed as [[toAdd toRemove]|ex]
  end; done.
Qed.

Section ApplyTwice.
Context `{HostAPI}.

Lemma Array_filterM_none {A} (test : A → Result bool) (array : list A) :
  (∀ x, x ∈ array → test x = Ok false) → Array_filterM test array = Ok [].
Proof.
  induction array as [|x rest IH]; intros Hall; simpl; [done|].
  rewrite (Hall x) by (by left). simpl.
  rewrite IH by (intros y Hy; apply Hall; by right). done.
Qed.

Lemma removeBreakpoints_nil (live : list Breakpoint) :
  removeBreakpoints [] (addBreakpoints [] live) = live.
Proof.
  unfold removeBreakpoints, addBreakpoints. rewrite filter_nil, app_nil_r.
  induction live as [|b rest IH]; [done|].
  rewrite filter_cons, decide_True by apply not_elem_of_nil.
  by rewrite IH.
Qed.

(** What a run of [setBreakpoints] on materialisable entries and host
    objects computes, and how the live set it leaves relates to the
    materialised list. *)
Lemma setBreakpoints_completes (ext : Extension) s0 rest :
  storedFor ext = Some (s0 :: rest) →
  forallb constructible (s0 :: rest) = true →
  forallb hostObject (debug_breakpoints ext) = true →
  ∃ new live',
    Array_mapM getBreakpoint (s0 :: rest) = Ok new
    ∧ setBreakpoints ext
      = (set_isBranchLocked false
           (set_debug_breakpoints live' (set_isBranchLocked true ext)),
         Ok ())
    ∧ (∀ n, n ∈ new → instantiated n = true)
    ∧ (∀ h, h ∈ live' → hostObject h = true)
    ∧ (∀ n, n ∈ new →
            ∃ h, h ∈ live' ∧ areBreakpointsEqual n h = Ok true)
    ∧ (∀ h, h ∈ live' →
            ∃ n, n ∈ new ∧ areBreakpointsEqual h n = Ok true).
Proof.
  intros Hstored Hconstructible Hhost.
  set (stored := s0 :: rest) in *. set (live := debug_breakpoints ext) in *.
  assert (Hlive : ∀ c, c ∈ live → hostObject c = true).
  { intros c Hc. rewrite forallb_forall in Hhost.
    by apply Hhost, list_elem_of_In. }
  destruct (Array_mapM_total getBreakpoint stored) as [new Hnew].
  { intros s Hs. apply getBreakpoint_constructible.
    rewrite forallb_forall in Hconstructible.
    by apply Hconstructible, list_elem_of_In. }
  pose proof (Array_mapM_elem_of _ _ _ Hnew) as Hnew_in.
  assert (Hinst : ∀ n, n ∈ new → instantiated n = true).
  { intros n (s & _ & Hsn)%Hnew_in. by eapply getBreakpoint_instantiated. }
  destruct (Array_filterM_total (hasNoEqual new) live) as [toRemove HtoRemove].
  { intros c Hc. apply hasNoEqual_total; [by apply Hlive|].
    intros n Hn. by apply instantiated_hostObject, Hinst. }
  destruct (Array_filterM_total (hasNoEqual live) new) as [toAdd HtoAdd].
  { intros n Hn. apply hasNoEqual_total; [|done].
    by apply instantiated_hostObject, Hinst. }
  exists new, (removeBreakpoints toRemove (addBreakpoints toAdd live)).
  split; [done|]. split.
  { by apply (setBreakpoints_run ext stored new toRemove toAdd). }
  split; [done|].
  pose proof HtoRemove as [HtoRemove_in HtoRemove_total]%Array_filterM_Ok.
  pose proof HtoAdd as [HtoAdd_in HtoAdd_total]%Array_filterM_Ok.
  split; [|split].
  - intros h [_ [Hh|[Hadded _]]]%elem_of_live_after; [by apply Hlive|].
    apply HtoAdd_in in Hadded as [Hh _].
    by apply instantiated_hostObject, Hinst.
  - intros n Hn_in.
    destruct (HtoAdd_total n Hn_in) as [[|] Htest].
    + exists n. split.
      * apply elem_of_live_after.
        assert (Hfresh : n ∉ live).
        { intros Hn_live.
          apply hasNoEqual_true with (x := n) in Htest; [|done].
          rewrite areBreakpointsEqual_instantiated_refl in Htest
            by (by apply Hinst).
          done. }
        split; [|right; split; [by apply HtoAdd_in|done]].
        intros [Hn_live _]%HtoRemove_in. done.
      * by apply areBreakpointsEqual_instantiated_refl, Hinst.
    + apply hasNoEqual_false in Htest as (c & Hc & Hnc).
      exists c. split; [|done].
      apply elem_of_live_after. split; [|by left].
      intros [_ Hnone]%HtoRemove_in.
      apply hasNoEqual_true with (x := n) in Hnone; [|done].
      rewrite areBreakpointsEqual_comm in Hnone. congruence.
  - intros h [Hkept [Hh|[Hadded Hfresh]]]%elem_of_live_after.
    + destruct (HtoRemove_total h Hh) as [[|] Htest].
      { exfalso. apply Hkept, HtoRemove_in. by split. }
      by apply hasNoEqual_false in Htest.
    + apply HtoAdd_in in Hadded as [Hh _]. exists h. split; [done|].
      by apply areBreakpointsEqual_instantiated_refl, Hinst.
Qed.
End ApplyTwice.

(** X11.  [setBreakpoints] is idempotent: on a branch whose stored
    entries can all be materialised and a live set of host objects, it
    completes, and a second call right after it completes as well and
    leaves the state, live breakpoints included, as the first call left
    it: nothing more is added or removed. *)
Theorem setBreakpoints_idempotent `{HostAPI} (ext : Extension) s0 rest :
  storedFor ext = Some (s0 :: rest) →
  forallb constructible (s0 :: rest) = true →
  forallb hostObject (debug_breakpoints ext) = true →
  ∃ ext', setBreakpoints ext = (ext', Ok ())
          ∧ setBreakpoints ext' = (ext', Ok ()).
Proof.
  intros Hstored Hconstructible Hhost.
  destruct (setBreakpoints_completes ext s0 rest Hstored Hconstructible Hhost)
    as (new & live' & Hnew & Hrun & Hinst & Hlive' & Hstored_live
        & Hlive_stored).
  eexists. split; [exact Hrun|].
  set (ext' := set_isBranchLocked false
                 (set_debug_breakpoints live' (set_isBranchLocked true ext))).
  assert (HtoRemove : Array_filterM (hasNoEqual new) (debug_breakpoints ext')
                      = Ok []).
  { apply Array_filterM_none. intros h Hh. simpl in Hh.
    destruct (hasNoEqual_total new h) as [[|] Htest]; [by apply Hlive'| | |done].
    { intros n Hn. by apply instantiated_hostObject, Hinst. }
    exfalso. destruct (Hlive_stored h Hh) as (n & Hn & Hhn).
    apply hasNoEqual_true with (x := n) in Htest; [|done]. congruence. }
  assert (HtoAdd : Array_filterM (hasNoEqual (debug_breakpoints ext')) new
                   = Ok []).
  { apply Array_filterM_none. intros n Hn. simpl.
    destruct (hasNoEqual_total live' n) as [[|] Htest];
      [by apply instantiated_hostObject, Hinst|done| |done].
    exfalso. destruct (Hstored_live n Hn) as (h & Hh & Hnh).
    apply hasNoEqual_true with (x := h) in Htest; [|done]. congruence. }
  rewrite (setBreakpoints_run ext' (s0 :: rest) new [] []);
    [|done|done|done|done|done].
  rewrite removeBreakpoints_nil. reflexivity.
Qed.

Lemma setBreakpoints_idempotent_witness :
  ∃ ext',
    @setBreakpoints Samples.host
      (Samples.extensionOf
         [{| name := "main";
             breakpoints := [Samples.storedA; Samples.storedF] |}] false
         [Samples.liveA_off; Samples.liveC])
    = (ext', Ok ())
    ∧ @setBreakpoints Samples.host ext' = (ext', Ok ()).
Proof.
  apply (@setBreakpoints_idempotent Samples.host
           (Samples.extensionOf
              [{| name := "main";
                  breakpoints := [Samples.storedA; Samples.storedF] |}] false
              [Samples.liveA_off; Samples.liveC])
           Samples.storedA [Samples.storedF]); reflexivity.
Defined.

(** ** Change events that match a stored breakpoint *)

Section Events.
Lemma Array_findIndexM_first {A} (p : A → Result bool) before x after :
  (∀ y, y ∈ before → p y = Ok false) → p x = Ok true →
  Array_findIndexM p (before ++ x :: after) = Ok (Z.of_nat (length before)).
Proof.
  intros Hbefore Hx. induction before as [|y rest IH]; simpl.
  - by rewrite Hx.
  - rewrite (Hbefore y) by (by left). simpl.
    rewrite IH by (intros z Hz; apply Hbefore; by right). simpl.
    rewrite decide_False by lia. f_equal. lia.
Qed.

Lemma Array_splice1_middle {A} (before : list A) x after :
  Array_splice1 (before ++ x :: after) (Z.of_nat (length before))
  = before ++ after.
Proof.
  unfold Array_splice1, relativeIndex. rewrite decide_False by lia.
  rewrite length_app. simpl.
  replace (Z.to_nat (Z.of_nat (length before)
                     `min` Z.of_nat (length before + S (length after))))
    with (length before) by lia.
  rewrite take_app_length.
  change (S (length before)) with (1 + length before)%nat.
  rewrite Nat.add_comm, <- drop_drop, drop_app_length. done.
Qed.

Lemma Array_slice_prefix {A} (before after : list A) :
  Array_slice (before ++ after) 0 (Z.of_nat (length before)) = before.
Proof.
  unfold Array_slice, relativeIndex. rewrite !decide_False by lia.
  rewrite length_app.
  replace (Z.to_nat (0 `min` Z.of_nat (length before + length after)))
    with 0%nat by lia.
  rewrite drop_0.
  replace (Z.to_nat _) with (length before) by lia.
  apply take_app_length.
Qed.

Lemma Array_slice_suffix {A} (before after : list A) :
  Array_slice (before ++ after) (Z.of_nat (length before) + 1)
              (Z.of_nat (length (before ++ after)))
  = drop 1 after.
Proof.
  unfold Array_slice, relativeIndex. rewrite !decide_False by lia.
  rewrite length_app. destruct after as [|y after]; simpl.
  - rewrite Nat.add_0_r.
    replace (Z.to_nat _) with 0%nat by lia. done.
  - replace (Z.to_nat ((Z.of_nat (length before) + 1)
                       `min` Z.of_nat (length before + S (length after))))
      with (length before + 1)%nat by lia.
    rewrite <- drop_drop, drop_app_length. simpl. rewrite drop_0.
    apply take_ge. lia.
Qed.

Lemma Array_findM_app_None {A} (p : A → Result bool) (l1 l2 : list A) :
  Array_findM p l1 = Ok None →
  Array_findM p (l1 ++ l2) = Array_findM p l2.
Proof.
  induction l1 as [|y rest IH]; simpl; [done|].
  destruct (p y) as [[|]|ex]; simpl; [done|exact IH|done].
Qed.

Lemma Array_findM_app_Throw {A} (p : A → Result bool) (l1 l2 : list A) x ex :
  (∀ y, y ∈ l1 → p y = Ok false ∨ p y = Throw ex) → p x = Throw ex →
  Array_findM p (l1 ++ x :: l2) = Throw ex.
Proof.
  intros Hl1 Hx. induction l1 as [|y rest IH]; simpl.
  - by rewrite Hx.
  - destruct (Hl1 y) as [-> | ->]; [by left| |done]. simpl.
    apply IH. intros z Hz. apply Hl1. by right.
Qed.

(** [find] and [findIndex] with the same callback agree. *)
Lemma Array_findIndex_spec {A} (p : A → bool) (l : list A) :
  (Array_findIndex p l = -1 ∧ Array_find p l = None
   ∧ ∀ x, x ∈ l → p x = false)
  ∨ (0 ≤ Array_findIndex p l
     ∧ ∃ x, l !! Z.to_nat (Array_findIndex p l) = Some x
            ∧ Array_find p l = Some x ∧ p x = true).
Proof.
  induction l as [|y rest IH]; simpl.
  - left. split; [done|]. split; [done|]. by intros x ?%elem_of_nil.
  - destruct (p y) eqn:Hy.
    + right. split; [lia|]. by exists y.
    + destruct IH as [(-> & Hfind & Hall)|(Hi & x & Hx & Hfind & Hpx)].
      * left. rewrite decide_True by done. split; [done|]. split; [done|].
        intros x [->|Hx]%elem_of_cons; [done|by apply Hall].
      * right. rewrite decide_False by lia. split; [lia|]. exists x.
        split; [|done].
        replace (Z.to_nat (1 + Array_findIndex p rest))
          with (S (Z.to_nat (Array_findIndex p rest))) by lia.
        done.
Qed.
End Events.

(** X12.  An "added" breakpoint is recorded once.  When the stored list
    holds host objects and the new breakpoint is an instance of a host
    class, the loop body appends it exactly when no stored breakpoint is
    equal to it, and leaves the list alone otherwise; the same breakpoint
    reported a second time changes nothing. *)
Theorem addedBreakpoint_idempotent (b : Breakpoint)
    (stored : list Breakpoint) :
  instantiated b = true →
  forallb hostObject stored = true →
  ∃ stored',
    addedBreakpoint b stored = (stored', Ok ())
    ∧ addedBreakpoint b stored' = (stored', Ok ())
    ∧ (((∃ x, x ∈ stored ∧ areBreakpointsEqual b x = Ok true)
        ∧ stored' = stored)
       ∨ ((∀ x, x ∈ stored → areBreakpointsEqual b x = Ok false)
          ∧ stored' = stored ++ [b])).
Proof.
  intros Hb Hstored.
  destruct (Array_findM_total (λ x, areBreakpointsEqual b x) stored)
    as [[x|] Hfound].
  { intros x Hx. apply areBreakpointsEqual_host_total.
    - by apply instantiated_hostObject.
    - rewrite forallb_forall in Hstored. by apply Hstored, list_elem_of_In. }
  - exists stored. unfold addedBreakpoint. rewrite Hfound.
    split; [done|]. split; [done|]. left. split; [|done].
    exists x. by apply Array_findM_Some in Hfound.
  - exists (stored ++ [b]). unfold addedBreakpoint. rewrite Hfound.
    split; [done|]. split.
    + rewrite Array_findM_app_None by done. simpl.
      by rewrite areBreakpointsEqual_instantiated_refl.
    + right. split; [|done]. by apply Array_findM_None.
Qed.

Lemma addedBreakpoint_idempotent_witness :
  ∃ stored',
    addedBreakpoint Samples.liveB [Samples.liveA; Samples.liveF]
    = (stored', Ok ())
    ∧ addedBreakpoint Samples.liveB stored' = (stored', Ok ())
    ∧ (((∃ x, x ∈ [Samples.liveA; Samples.liveF]
              ∧ areBreakpointsEqual Samples.liveB x = Ok true)
        ∧ stored' = [Samples.liveA; Samples.liveF])
       ∨ ((∀ x, x ∈ [Samples.liveA; Samples.liveF] →
                areBreakpointsEqual Samples.liveB x = Ok false)
          ∧ stored' = [Samples.liveA; Samples.liveF] ++ [Samples.liveB])).
Proof.
  apply (addedBreakpoint_idempotent Samples.liveB
           [Samples.liveA; Samples.liveF]); reflexivity.
Defined.

(** X13.  A "removed" breakpoint deletes the first stored breakpoint that
    is equal to it, and nothing else: the entries before it and all the
    entries after it, equal ones included, stay in place. *)
Theorem removedBreakpoint_first_match (b x : Breakpoint)
    (before after : list Breakpoint) :
  (∀ y, y ∈ before → areBreakpointsEqual y b = Ok false) →
  areBreakpointsEqual x b = Ok true →
  removedBreakpoint b (before ++ x :: after) = (before ++ after, Ok ()).
Proof.
  intros Hbefore Hx. unfold removedBreakpoint.
  rewrite (Array_findIndexM_first (λ y, areBreakpointsEqual y b)) by done.
  by rewrite Array_splice1_middle.
Qed.

Lemma removedBreakpoint_first_match_witness :
  removedBreakpoint Samples.liveA_off
    ([Samples.liveB] ++ Samples.liveA :: [Samples.liveC; Samples.liveA])
  = ([Samples.liveB] ++ [Samples.liveC; Samples.liveA], Ok ()).
Proof.
  apply (removedBreakpoint_first_match Samples.liveA_off Samples.liveA
           [Samples.liveB] [Samples.liveC; Samples.liveA]).
  - intros y ->%list_elem_of_singleton. reflexivity.
  - reflexivity.
Defined.

(** X14.  A "changed" breakpoint takes the place of the first stored
    breakpoint that is equal to it, and the entry that followed that
    breakpoint is lost: [slice(index + 1, ...)] is taken from the array
    that [splice] has already shortened by one. *)
Theorem changedBreakpoint_first_match (b x : Breakpoint)
    (before after : list Breakpoint) :
  (∀ y, y ∈ before → areBreakpointsEqual y b = Ok false) →
  areBreakpointsEqual x b = Ok true →
  changedBreakpoint b (before ++ x :: after)
  = (before ++ b :: drop 1 after, Ok ()).
Proof.
  intros Hbefore Hx. unfold changedBreakpoint.
  rewrite (Array_findIndexM_first (λ y, areBreakpointsEqual y b)) by done.
  rewrite Array_splice1_middle, Array_slice_prefix, Array_slice_suffix.
  done.
Qed.

Lemma changedBreakpoint_first_match_witness :
  changedBreakpoint Samples.liveA_off
    ([Samples.liveB] ++ Samples.liveA :: [Samples.liveC; Samples.liveF])
  = ([Samples.liveB] ++ Samples.liveA_off :: drop 1 [Samples.liveC; Samples.liveF],
     Ok ()).
Proof.
  apply (changedBreakpoint_first_match Samples.liveA_off Samples.liveA
           [Samples.liveB] [Samples.liveC; Samples.liveF]).
  - intros y ->%list_elem_of_singleton. reflexivity.
  - reflexivity.
Defined.

(** ** What an event leaves of the map *)

(** X15.  [getUpdatedBreakpoints], when it returns a map, keeps the
    version and every branch with another name at its index; the branch
    of the head is updated where it stands, or appended at the end when
    the map has none, so the names of the branches are those of the map
    passed in, followed by the head if it was missing.  The map passed in
    is itself updated when it holds the branch of the head, and is left
    alone otherwise. *)
Theorem getUpdatedBreakpoints_frame (e : BreakpointsChangeEvent)
    (branchBreakpoints0 : BranchBreakpoints) (headName : string)
    (memory update : BranchBreakpoints) :
  getUpdatedBreakpoints e false branchBreakpoints0 headName
  = (memory, Ok (Some update)) →
  let names := name <$> branch branchBreakpoints0 in
  version update = version branchBreakpoints0
  ∧ (∀ i other, branch branchBreakpoints0 !! i = Some other →
                name other ≠ headName →
                branch update !! i = Some other)
  ∧ name <$> branch update
    = (if bool_decide (headName ∈ names) then names else names ++ [headName])
  ∧ memory
    = (if bool_decide (headName ∈ names) then update else branchBreakpoints0).
Proof.
  unfold getUpdatedBreakpoints.
  set (p := λ x : Branch, bool_decide (name x = headName)).
  set (branches := branch branchBreakpoints0).
  destruct (Array_findIndex_spec p branches)
    as [(Hindex & _ & Hall)|(Hindex & found & Hfound & _ & Hname)].
  - rewrite Hindex. simpl.
    destruct (foldEvent e []) as [newBreakpoints [[]|ex]]; [|done].
    intros [= <- <-]. simpl.
    assert (Hnot : headName ∉ name <$> branches).
    { intros (other & Heq & Hin)%list_elem_of_fmap.
      apply Hall in Hin. unfold p in Hin.
      by apply bool_decide_eq_false in Hin. }
    rewrite bool_decide_false by done.
    split; [done|]. split; [|split; [|done]].
    + intros i other Hi _. by apply lookup_app_l_Some.
    + by rewrite fmap_app.
  - apply bool_decide_eq_true in Hname.
    rewrite (bool_decide_true (_ ≠ -1)) by lia.
    rewrite (bool_decide_false (_ = -1)) by lia.
    rewrite Hfound. simpl.
    destruct (foldEvent e (breakpoints found)) as [newBreakpoints [[]|ex]];
      [|done].
    intros [= <- <-]. simpl.
    assert (Hin : headName ∈ name <$> branches).
    { apply list_elem_of_fmap. exists found. split; [done|].
      by eapply list_elem_of_lookup_2. }
    rewrite bool_decide_true by done.
    split; [done|]. split; [|split; [|done]].
    + intros i other Hi Hother.
      rewrite list_lookup_insert_ne; [done|].
      intros <-. congruence.
    + rewrite list_fmap_insert. simpl. apply list_insert_id.
      by rewrite list_lookup_fmap, Hfound.
Qed.

Lemma getUpdatedBreakpoints_frame_witness :
  let names := name <$> branch (Samples.mapOf
                                  [{| name := "dev"; breakpoints := [] |}]) in
  let update :=
    Samples.mapOf [{| name := "dev"; breakpoints := [] |};
                   {| name := "main"; breakpoints := [Samples.liveA] |}] in
  version update = Some "0.0.2"
  ∧ (∀ i other,
       [{| name := "dev"; breakpoints := [] |}] !! i = Some other →
       name other ≠ "main" → branch update !! i = Some other)
  ∧ name <$> branch update
    = (if bool_decide ("main" ∈ names) then names else names ++ ["main"])
  ∧ Samples.mapOf [{| name := "dev"; breakpoints := [] |}]
    = (if bool_decide ("main" ∈ names) then update
       else Samples.mapOf [{| name := "dev"; breakpoints := [] |}]).
Proof.
  apply (getUpdatedBreakpoints_frame (Samples.addedEvent Samples.liveA)
           (Samples.mapOf [{| name := "dev"; breakpoints := [] |}]) "main").
  reflexivity.
Defined.

(** X16.  The listener of [onDidChangeBreakpoints] keeps the store in
    step with the map: whenever it handles an event while the lock is off
    and returns, the blob under the key is the map it holds afterwards.
    When it throws, the store is as it was.  In no case does it change
    the head, the lock or the live breakpoints. *)
Theorem onDidChangeBreakpoints_persists (e : BreakpointsChangeEvent)
    (ext : Extension) :
  isBranchLocked ext = false →
  let ext' := (onDidChangeBreakpoints e ext).1 in
  match (onDidChangeBreakpoints e ext).2 with
  | Ok _ =>
      workspaceState (context ext') !! breakpointMapKeyName
      = Some (branchBreakpoints ext')
  | Throw _ => context ext' = context ext
  end
  ∧ head ext' = head ext
  ∧ isBranchLocked ext' = isBranchLocked ext
  ∧ debug_breakpoints ext' = debug_breakpoints ext.
Proof.
  intros Hunlocked. unfold onDidChangeBreakpoints. rewrite Hunlocked.
  unfold getUpdatedBreakpoints.
  destruct (foldEvent e _) as [newBreakpoints [[]|ex]]; simpl; [|done].
  split; [|done]. apply lookup_insert_eq.
Qed.

Lemma onDidChangeBreakpoints_persists_witness :
  let ext := Samples.extensionOf [] false [] in
  let e := Samples.addedEvent Samples.liveA in
  let ext' := (onDidChangeBreakpoints e ext).1 in
  match (onDidChangeBreakpoints e ext).2 with
  | Ok _ =>
      workspaceState (context ext') !! breakpointMapKeyName
      = Some (branchBreakpoints ext')
  | Throw _ => context ext' = context ext
  end
  ∧ head ext' = head ext
  ∧ isBranchLocked ext' = isBranchLocked ext
  ∧ debug_breakpoints ext' = debug_breakpoints ext.
Proof.
  intros ext e.
  apply (onDidChangeBreakpoints_persists e ext). reflexivity.
Defined.

(** ** Events on a map revived from the store *)

Section Revived.
Lemma Array_findIndexM_app_Throw {A} (p : A → Result bool) (l1 l2 : list A)
    x ex :
  (∀ y, y ∈ l1 → p y = Ok false ∨ p y = Throw ex) → p x = Throw ex →
  Array_findIndexM p (l1 ++ x :: l2) = Throw ex.
Proof.
  intros Hl1 Hx. induction l1 as [|y rest IH]; simpl.
  - by rewrite Hx.
  - destruct (Hl1 y) as [-> | ->]; [by left| |done]. simpl.
    rewrite IH; [done|]. intros z Hz. apply Hl1. by right.
Qed.

(** A source breakpoint of the host against a revived entry: [false], or
    the [TypeError] when the entry has a location with the same path. *)
Lemma areBreakpointsEqual_source_revived path r a (y : Breakpoint) :
  revived y = true →
  areBreakpointsEqual (SourceBreakpoint path r a) y
  = match get_location y with
    | Some location =>
        if bool_decide (uri_path location = path) then Throw TypeError
        else Ok false
    | None => Ok false
    end.
Proof.
  destruct y as [p2 r2 a2|f2 a2|[[p2 r2]|] [f2|] a2]; try done; intros _;
    unfold areBreakpointsEqual, isSourceBreakpoint, isFunctionBreakpoint;
    simpl; try done;
    destruct (decide (p2 = path)) as [->|Hne];
    rewrite ?bool_decide_true, ?bool_decide_false by congruence;
    simpl; rewrite ?bool_decide_true, ?bool_decide_false by congruence; done.
Qed.

Lemma foldEvent_first_throws (e : BreakpointsChangeEvent) (b : Breakpoint)
    (stored : list Breakpoint) ex :
  hd_error (added e ++ changed e ++ removed e) = Some b →
  Array_findM (λ x, areBreakpointsEqual b x) stored = Throw ex →
  Array_findIndexM (λ x, areBreakpointsEqual x b) stored = Throw ex →
  foldEvent e stored = (stored, Throw ex).
Proof.
  intros Hfirst Hfind HfindIndex. unfold foldEvent.
  destruct (added e) as [|b1 rest1]; simpl in *.
  - destruct (changed e) as [|b2 rest2]; simpl in *.
    + destruct (removed e) as [|b3 rest3]; simpl in *; [done|].
      injection Hfirst as ->. unfold removedBreakpoint.
      by rewrite HfindIndex.
    + injection Hfirst as ->. unfold changedBreakpoint.
      by rewrite HfindIndex.
  - injection Hfirst as ->. unfold addedBreakpoint. by rewrite Hfind.
Qed.
End Revived.

(** X17.  Once the map has been revived from the store, its entries are
    plain records.  If the branch of the head then holds an entry located
    in some file, an event whose first breakpoint is a source breakpoint
    of the host in the same file, whether added, changed or removed and
    whatever its range, makes the listener throw the [TypeError] of
    [toJsonRange]; map and store stay as they were, so the event is not
    recorded. *)
Theorem onDidChangeBreakpoints_revived_throws (e : BreakpointsChangeEvent)
    (ext : Extension) (stored : list Breakpoint) path range0 functionName0
    a0 range1 a1 :
  isBranchLocked ext = false →
  storedFor ext = Some stored →
  forallb revived stored = true →
  JsonObject (Some (path, range0)) functionName0 a0 ∈ stored →
  hd_error (added e ++ changed e ++ removed e)
  = Some (SourceBreakpoint path range1 a1) →
  onDidChangeBreakpoints e ext = (ext, Throw TypeError).
Proof.
  intros Hunlocked Hstored Hrevived Hin Hfirst.
  set (b := SourceBreakpoint path range1 a1) in *.
  assert (Hevery : ∀ y, y ∈ stored →
            areBreakpointsEqual b y = Ok false
            ∨ areBreakpointsEqual b y = Throw TypeError).
  { intros y Hy. unfold b.
    rewrite areBreakpointsEqual_source_revived.
    - destruct (get_location y); [|by left].
      destruct (bool_decide _); [by right|by left].
    - rewrite forallb_forall in Hrevived.
      by apply Hrevived, list_elem_of_In. }
  apply list_elem_of_split in Hin as (l1 & l2 & Hsplit).
  assert (Hthrows : areBreakpointsEqual b
                      (JsonObject (Some (path, range0)) functionName0 a0)
                    = Throw TypeError).
  { unfold b. rewrite areBreakpointsEqual_source_revived by done.
    simpl. by rewrite bool_decide_true. }
  assert (Hfold : foldEvent e stored = (stored, Throw TypeError)).
  { apply (foldEvent_first_throws e b); [done| |]; rewrite Hsplit.
    - apply (Array_findM_app_Throw (λ x, areBreakpointsEqual b x));
        [|done].
      intros y Hy. apply Hevery. rewrite Hsplit, elem_of_app. by left.
    - apply (Array_findIndexM_app_Throw (λ x, areBreakpointsEqual x b)).
      + intros y Hy. rewrite !(areBreakpointsEqual_comm y b).
        apply Hevery. rewrite Hsplit, elem_of_app. by left.
      + by rewrite areBreakpointsEqual_comm. }
  unfold storedFor in Hstored.
  unfold onDidChangeBreakpoints, getUpdatedBreakpoints.
  rewrite Hunlocked.
  destruct (Array_findIndex_spec (λ x, bool_decide (name x = head ext))
              (branch (branchBreakpoints ext)))
    as [(_ & Hnone & _)|(Hindex & found & Hfound & Hfind & _)].
  { by rewrite Hnone in Hstored. }
  rewrite Hfind in Hstored. injection Hstored as Hstored.
  rewrite (bool_decide_true (_ ≠ -1)) by lia.
  rewrite (bool_decide_false (_ = -1)) by lia.
  rewrite Hfound. simpl. rewrite Hstored, Hfold.
  rewrite list_insert_id by (destruct found; simpl in *; by subst).
  by destruct ext as [? [? ?] ? ? ?].
Qed.

Lemma onDidChangeBreakpoints_revived_throws_witness :
  let ext :=
    Samples.extensionOf
      [{| name := "main"; breakpoints := [Samples.storedF; Samples.storedA] |}]
      false [Samples.liveF; Samples.liveA] in
  onDidChangeBreakpoints (Samples.removedEvent Samples.liveA) ext
  = (ext, Throw TypeError).
Proof.
  intros ext.
  apply (onDidChangeBreakpoints_revived_throws
           (Samples.removedEvent Samples.liveA) ext
           [Samples.storedF; Samples.storedA] "/a.ts"
           (Samples.pos 1 0, Samples.pos 1 5) None Samples.on
           {| start := Samples.pos 1 0; end_ := Samples.pos 1 5 |} Samples.on).
  - reflexivity.
  - reflexivity.
  - reflexivity.
  - unfold Samples.storedA. apply list_elem_of_In. simpl. right. by left.
  - reflexivity.
Defined.

(** ** The head watcher *)

Section HeadWatcher.
Context `{HostAPI}.

(** [setBreakpoints] writes the lock and the live breakpoints only. *)
Lemma setBreakpoints_fields (ext : Extension) :
  branchBreakpoints (setBreakpoints ext).1 = branchBreakpoints ext
  ∧ head (setBreakpoints ext).1 = head ext
  ∧ context (setBreakpoints ext).1 = context ext
  ∧ isBranchLocked (setBreakpoints ext).1 = false.
Proof.
  unfold setBreakpoints, try_finally, setBreakpoints_body. simpl.
  destruct (breakpoints <$> Array_find _ _) as [[|s0 stored]|]; simpl;
    try done.
  match goal with
  | |- context [match ?computed with Ok _ => _ | Throw _ => _ end] =>
      destruct computed as [[toAdd toRemove]|ex]
  end; done.
Qed.
End HeadWatcher.

(** X18.  The callback of the watcher of the marker file applies a head
    once: after it has run for the content read from the file, whatever
    the outcome, the head it holds is that content, and a second
    notification with the same content returns at once and changes
    nothing.  Map and store are not written. *)
Theorem onHeadFileChange_once `{HostAPI} (newHead : string)
    (ext : Extension) :
  let ext' := (onHeadFileChange newHead ext).1 in
  head ext' = newHead
  ∧ onHeadFileChange newHead ext' = (ext', Ok ())
  ∧ branchBreakpoints ext' = branchBreakpoints ext
  ∧ context ext' = context ext.
Proof.
  intros ext'.
  assert (Hhead : head ext' = newHead
                  ∧ branchBreakpoints ext' = branchBreakpoints ext
                  ∧ context ext' = context ext).
  { unfold ext', onHeadFileChange.
    destruct (decide (newHead = head ext)) as [Heq|Hne].
    - rewrite bool_decide_true by done. done.
    - rewrite bool_decide_false by done.
      destruct (setBreakpoints_fields (set_head newHead ext))
        as (-> & -> & -> & _).
      done. }
  destruct Hhead as (Hhead & Hmap & Hcontext).
  split; [done|]. split; [|done].
  unfold onHeadFileChange at 1. by rewrite bool_decide_true.
Qed.

(** ** The duplicate check, continued *)

Section CountByKey.
Context {A Key : Type} `{EqDecision Key} (K : A → option Key).

Lemma filter_key_complement (k k' : Key) (l : list A) :
  filter (λ x, K x = Some k') (filter (λ x, ¬ K x = Some k) l)
  = if decide (k' = k) then [] else filter (λ x, K x = Some k') l.
Proof.
  rewrite list_filter_filter. destruct (decide (k' = k)) as [->|Hne].
  - apply filter_none. intros x _ [? ?]. done.
  - apply list_filter_iff. intros x. split; [by intros [? _]|].
    intros Hx. split; [done|]. congruence.
Qed.

Lemma length_key_split (k : Key) (l : list A) :
  length l
  = (length (filter (λ x, K x = Some k) l)
     + length (filter (λ x, ¬ K x = Some k) l))%nat.
Proof.
  rewrite <- length_app. symmetry. apply Permutation_length.
  apply (filter_app_complement (λ x, K x = Some k)).
Qed.

(** A list of keyed elements that has, under every key, at most as many
    elements as another list is at most as long. *)
Lemma length_by_key (r l : list A) :
  (∀ x, x ∈ r → is_Some (K x)) →
  (∀ k, (length (filter (λ x, K x = Some k) r)
         ≤ length (filter (λ x, K x = Some k) l))%nat) →
  (length r ≤ length l)%nat.
Proof.
  remember (length r) as n eqn:Hn. revert r l Hn.
  induction n as [n IH] using lt_wf_ind. intros r l -> Hkeyed Hcount.
  destruct r as [|x r']; [simpl; lia|].
  destruct (Hkeyed x) as [k Hk]; [by left|].
  rewrite (length_key_split k (x :: r')), (length_key_split k l).
  apply Nat.add_le_mono; [apply Hcount|].
  assert (Hlt : (length (filter (λ y, ¬ K y = Some k) (x :: r'))
                 < length (x :: r'))%nat).
  { rewrite filter_cons, decide_False by (intros Hnot; by apply Hnot).
    pose proof (length_filter (λ y, ¬ K y = Some k) r'). simpl. lia. }
  apply (IH _ Hlt _ _ eq_refl).
  - intros y [_ Hy]%list_elem_of_filter. by apply Hkeyed.
  - intros k'. rewrite !filter_key_complement.
    destruct (decide (k' = k)); [done|apply Hcount].
Qed.

Lemma length_by_key_lt (r l : list A) (k0 : Key) :
  (∀ x, x ∈ r → is_Some (K x)) →
  (∀ k, (length (filter (λ x, K x = Some k) r)
         ≤ length (filter (λ x, K x = Some k) l))%nat) →
  (length (filter (λ x, K x = Some k0) r)
   < length (filter (λ x, K x = Some k0) l))%nat →
  (length r < length l)%nat.
Proof.
  intros Hkeyed Hcount Hlt.
  rewrite (length_key_split k0 r), (length_key_split k0 l).
  apply Nat.add_lt_le_mono; [done|].
  apply length_by_key.
  - intros y [_ Hy]%list_elem_of_filter. by apply Hkeyed.
  - intros k'. rewrite !filter_key_complement.
    destruct (decide (k' = k0)); [done|apply Hcount].
Qed.
End CountByKey.

Section Dedup.
Implicit Types maps : ScanMaps.

Lemma scanKey_location (b : Breakpoint) key :
  scanKey b = Some (inl key) ↔ locationKey b = Some key.
Proof.
  unfold scanKey. destruct (locationKey b) as [key'|].
  - split; congruence.
  - destruct (functionKey b); simpl; split; congruence.
Qed.

Lemma scanKey_function (b : Breakpoint) func :
  scanKey b = Some (inr func) ↔ functionKey b = Some func.
Proof.
  unfold scanKey. destruct (locationKey b) as [key'|] eqn:Hkey.
  - rewrite (locationKey_functionKey b key') by done. split; congruence.
  - destruct (functionKey b); simpl; split; congruence.
Qed.

Lemma filter_scanKey (l : list Breakpoint) key :
  filter (λ b, scanKey b = Some key) l
  = match key with
    | inl (path, rangeStr) => locationBreakpointsAt path rangeStr l
    | inr func => functionBreakpointsAt func l
    end.
Proof.
  destruct key as [[path rangeStr]|func]; apply list_filter_iff; intros b.
  - apply scanKey_location.
  - apply scanKey_function.
Qed.

(** A breakpoint with a key has a location or a function name, not
    both. *)
Lemma scanKey_xor (b : Breakpoint) :
  is_Some (scanKey b) →
  xorb (isSourceBreakpoint b) (isFunctionBreakpoint b) = true.
Proof.
  unfold scanKey, locationKey, functionKey, isSourceBreakpoint,
    isFunctionBreakpoint.
  destruct (get_location b) as [loc|], (get_functionName b) as [f|]; simpl;
    try done; intros [? [=]].
Qed.

Lemma recreateBreakpoints_keyed (l : list Breakpoint) maps x :
  scanBreakpoints emptyMaps l = Ok maps →
  x ∈ recreateBreakpoints maps → is_Some (scanKey x).
Proof.
  intros Hscan Hx.
  destruct (scanBreakpoints_emptyMaps l maps Hscan) as [_ [Hlocs Hnamed]].
  change (recreateBreakpoints maps)
    with (locationPart (locationPathMap maps)
          ++ functionPart (functionNameMap maps)) in Hx.
  apply elem_of_app in Hx as [Hx|Hx].
  - apply elem_of_locationPart in Hx as (p & rm & r & d & Hin & Hin' & ->).
    exists (inl (p, r)). apply scanKey_location. by eapply Hlocs.
  - apply elem_of_functionPart in Hx as (f & arr & Hin & Hx).
    exists (inr f). apply scanKey_function. by eapply Hnamed.
Qed.

(** Under every key the rebuilt list has at most one breakpoint, and none
    when the scanned list has none. *)
Lemma recreateBreakpoints_count (l : list Breakpoint) maps key :
  scanBreakpoints emptyMaps l = Ok maps →
  (length (filter (λ b, scanKey b = Some key) (recreateBreakpoints maps))
   ≤ Nat.min 1 (length (filter (λ b, scanKey b = Some key) l)))%nat.
Proof.
  intros Hscan. rewrite !filter_scanKey.
  destruct key as [[path rangeStr]|func].
  - rewrite (recreateBreakpoints_location _ _ _ _ Hscan).
    destruct (locationBreakpointsAt path rangeStr l) as [|b0 more]
      using rev_ind; [done|].
    rewrite last_snoc, length_app.
    change (length (option_list (Some b0))) with 1%nat.
    change (length [b0]) with 1%nat. lia.
  - rewrite (recreateBreakpoints_function _ _ _ Hscan).
    destruct (functionBreakpointsAt func l) as [|b0 more]; [done|].
    change (length (option_list (hd_error (b0 :: more)))) with 1%nat.
    change (length (b0 :: more)) with (S (length more)). lia.
Qed.

Lemma recreateBreakpoints_elem_of (l : list Breakpoint) maps x :
  scanBreakpoints emptyMaps l = Ok maps →
  x ∈ recreateBreakpoints maps ↔
  (∃ path rangeStr, last (locationBreakpointsAt path rangeStr l) = Some x)
  ∨ (∃ func, hd_error (functionBreakpointsAt func l) = Some x).
Proof.
  intros Hscan. split.
  - intros Hx.
    destruct (recreateBreakpoints_keyed l maps x Hscan Hx)
      as [[[path rangeStr]|func] Hkey].
    + left. exists path, rangeStr. apply scanKey_location in Hkey.
      assert (Hin : x ∈ locationBreakpointsAt path rangeStr
                          (recreateBreakpoints maps))
        by (by apply list_elem_of_filter).
      rewrite (recreateBreakpoints_location _ _ _ _ Hscan) in Hin.
      destruct (last _) as [y|]; simpl in Hin.
      * by apply list_elem_of_singleton in Hin as ->.
      * by apply elem_of_nil in Hin.
    + right. exists func. apply scanKey_function in Hkey.
      assert (Hin : x ∈ functionBreakpointsAt func (recreateBreakpoints maps))
        by (by apply list_elem_of_filter).
      rewrite (recreateBreakpoints_function _ _ _ Hscan) in Hin.
      destruct (hd_error _) as [y|]; simpl in Hin.
      * by apply list_elem_of_singleton in Hin as ->.
      * by apply elem_of_nil in Hin.
  - intros [(path & rangeStr & Hlast)|(func & Hfirst)].
    + assert (Hin : x ∈ locationBreakpointsAt path rangeStr
                          (recreateBreakpoints maps)).
      { rewrite (recreateBreakpoints_location _ _ _ _ Hscan), Hlast.
        by left. }
      by apply list_elem_of_filter in Hin as [_ Hin].
    + assert (Hin : x ∈ functionBreakpointsAt func (recreateBreakpoints maps)).
      { rewrite (recreateBreakpoints_function _ _ _ Hscan), Hfirst.
        by left. }
      by apply list_elem_of_filter in Hin as [_ Hin].
Qed.

(** The three outcomes of [checkBranch]. *)
Lemma checkBranch_cases (b : Branch) :
  (forallb scannable (breakpoints b) = false ∧ checkBranch b = (b, false))
  ∨ (∃ maps, scanBreakpoints emptyMaps (breakpoints b) = Ok maps
             ∧ needsRecreate maps = false ∧ checkBranch b = (b, false))
  ∨ (∃ maps, scanBreakpoints emptyMaps (breakpoints b) = Ok maps
             ∧ needsRecreate maps = true
             ∧ checkBranch b
               = ({| name := name b;
                     breakpoints := recreateBreakpoints maps |}, true)).
Proof.
  unfold checkBranch. fold emptyMaps.
  destruct (scanBreakpoints emptyMaps (breakpoints b)) as [maps|ex] eqn:Hscan.
  - right. destruct (needsRecreate maps) eqn:Hneeds.
    + right. by exists maps.
    + left. by exists maps.
  - left. split; [|done].
    destruct (forallb scannable (breakpoints b)) eqn:Hscannable; [|done].
    destruct (scanBreakpoints_total emptyMaps (breakpoints b) Hscannable)
      as [maps Hmaps].
    congruence.
Qed.
End Dedup.

(** X19.  Function breakpoints are deduplicated by name, and the one that
    stays is the first: when a branch that the scan passes holds more
    than one breakpoint under a function name, the branch is rebuilt and
    the rebuilt list has, under that name, the first of them in scan
    order and no other. *)
Theorem checkBranch_function_keeps_first (b : Branch) (func : string)
    (first second : Breakpoint) (more : list Breakpoint) :
  forallb scannable (breakpoints b) = true →
  functionBreakpointsAt func (breakpoints b) = first :: second :: more →
  (checkBranch b).2 = true
  ∧ functionBreakpointsAt func (breakpoints (checkBranch b).1) = [first].
Proof.
  intros Hscannable Hfound.
  destruct (checkBranch_cases b)
    as [[Hnot _]|[(maps & Hscan & Hneeds & _)|(maps & Hscan & _ & ->)]].
  - congruence.
  - assert (needsRecreate maps = true); [|congruence].
    apply (needsRecreate_duplicates _ _ Hscan). right. exists func.
    rewrite Hfound. simpl. lia.
  - simpl. split; [done|].
    by rewrite (recreateBreakpoints_function _ _ _ Hscan), Hfound.
Qed.

Lemma checkBranch_function_keeps_first_witness :
  let b :=
    {| name := "dev";
       breakpoints :=
         [JsonObject None (Some "main") Samples.off; Samples.storedB;
          Samples.storedF] |} in
  (checkBranch b).2 = true
  ∧ functionBreakpointsAt "main" (breakpoints (checkBranch b).1)
    = [JsonObject None (Some "main") Samples.off].
Proof.
  intros b.
  apply (checkBranch_function_keeps_first b "main"
           (JsonObject None (Some "main") Samples.off) Samples.storedF []).
  - reflexivity.
  - vm_compute. reflexivity.
Defined.

(** X20.  A branch is rebuilt exactly when the scan of its breakpoints
    passes and two of them share a location key or a function name.  A
    branch holding a breakpoint whose range cannot be stringified is
    therefore never rebuilt, duplicates or not; and a branch that is not
    rebuilt is returned as it was. *)
Theorem checkBranch_recreates_iff (b : Branch) :
  ((checkBranch b).2 = true ↔
   forallb scannable (breakpoints b) = true
   ∧ ((∃ path rangeStr,
         (1 < length (locationBreakpointsAt path rangeStr (breakpoints b)))%nat)
      ∨ (∃ func,
           (1 < length (functionBreakpointsAt func (breakpoints b)))%nat)))
  ∧ ((checkBranch b).2 = false → (checkBranch b).1 = b).
Proof.
  destruct (checkBranch_cases b)
    as [[Hnot ->]|[(maps & Hscan & Hneeds & ->)|(maps & Hscan & Hneeds & ->)]];
    simpl; (split; [|done]).
  - split; [done|]. intros [Hscannable _]. congruence.
  - split; [done|]. intros [_ Hdup].
    apply (needsRecreate_duplicates _ _ Hscan) in Hdup. congruence.
  - split; [|done]. intros _. split.
    + by eapply scanBreakpoints_Ok_scannable.
    + by apply (needsRecreate_duplicates _ _ Hscan).
Qed.

(** X21.  What a rebuilt branch holds: exactly the breakpoints that are
    the last of the scanned list under their location key, or the first
    under their function name.  Every one of them comes from the scanned
    list and has a location or a function name, not both: the stored
    entries with both fields, or with neither, are dropped by a
    rebuild. *)
Theorem checkBranch_rebuilt_elem_of (b : Branch) :
  (checkBranch b).2 = true →
  (∀ x, x ∈ breakpoints (checkBranch b).1 ↔
        (∃ path rangeStr,
           last (locationBreakpointsAt path rangeStr (breakpoints b)) = Some x)
        ∨ (∃ func,
             hd_error (functionBreakpointsAt func (breakpoints b)) = Some x))
  ∧ (∀ x, x ∈ breakpoints (checkBranch b).1 →
          x ∈ breakpoints b
          ∧ xorb (isSourceBreakpoint x) (isFunctionBreakpoint x) = true).
Proof.
  destruct (checkBranch_cases b)
    as [[Hnot ->]|[(maps & Hscan & Hneeds & ->)|(maps & Hscan & Hneeds & ->)]];
    simpl; [done|done|]. intros _.
  split; [intros x; by apply recreateBreakpoints_elem_of|].
  intros x Hx. split.
  - apply (recreateBreakpoints_elem_of _ _ _ Hscan) in Hx
      as [(path & rangeStr & Hlast)|(func & Hfirst)].
    + apply last_Some in Hlast as [l' Hl'].
      assert (Hin : x ∈ locationBreakpointsAt path rangeStr (breakpoints b))
        by (rewrite Hl', elem_of_app; right; by left).
      by apply list_elem_of_filter in Hin as [_ Hin].
    + assert (Hin : x ∈ functionBreakpointsAt func (breakpoints b)).
      { destruct (functionBreakpointsAt func (breakpoints b)) as [|y ys];
          [done|].
        injection Hfirst as ->. by left. }
      by apply list_elem_of_filter in Hin as [_ Hin].
  - apply scanKey_xor. by eapply recreateBreakpoints_keyed.
Qed.

Lemma checkBranch_rebuilt_elem_of_witness :
  let b :=
    {| name := "dev";
       breakpoints :=
         [Samples.storedA; Samples.storedNeither; Samples.storedA_off] |} in
  (∀ x, x ∈ breakpoints (checkBranch b).1 ↔
        (∃ path rangeStr,
           last (locationBreakpointsAt path rangeStr (breakpoints b)) = Some x)
        ∨ (∃ func,
             hd_error (functionBreakpointsAt func (breakpoints b)) = Some x))
  ∧ (∀ x, x ∈ breakpoints (checkBranch b).1 →
          x ∈ breakpoints b
          ∧ xorb (isSourceBreakpoint x) (isFunctionBreakpoint x) = true).
Proof.
  intros b. apply (checkBranch_rebuilt_elem_of b). reflexivity.
Defined.

(** X22.  The duplicate check never lengthens a branch, and a rebuild
    shortens it: the branch keeps its name, and its list of breakpoints
    is strictly shorter when the branch is reported as recreated and the
    same list otherwise. *)
Theorem checkBranch_reduces (b : Branch) :
  name (checkBranch b).1 = name b
  ∧ (length (breakpoints (checkBranch b).1) ≤ length (breakpoints b))%nat
  ∧ ((checkBranch b).2 = true ↔
     (length (breakpoints (checkBranch b).1) < length (breakpoints b))%nat)
  ∧ ((checkBranch b).2 = false →
     breakpoints (checkBranch b).1 = breakpoints b).
Proof.
  destruct (checkBranch_cases b)
    as [[Hnot ->]|[(maps & Hscan & Hneeds & ->)|(maps & Hscan & Hneeds & ->)]];
    simpl.
  - split; [done|]. split; [lia|]. split; [|done]. split; [done|lia].
  - split; [done|]. split; [lia|]. split; [|done]. split; [done|lia].
  - split; [done|].
    assert (Hlt : (length (recreateBreakpoints maps)
                   < length (breakpoints b))%nat);
      [|split; [lia|split; done]].
    assert (Hcount : ∀ key,
              (length (filter (λ x, scanKey x = Some key)
                              (recreateBreakpoints maps))
               ≤ length (filter (λ x, scanKey x = Some key)
                                (breakpoints b)))%nat).
    { intros key.
      pose proof (recreateBreakpoints_count _ _ key Hscan). lia. }
    apply (needsRecreate_duplicates _ _ Hscan) in Hneeds
      as [(path & rangeStr & Hlen)|(func & Hlen)].
    + apply (length_by_key_lt scanKey _ _ (inl (path, rangeStr)));
        [intros x Hx; by eapply recreateBreakpoints_keyed|done|].
      pose proof (recreateBreakpoints_count _ _ (inl (path, rangeStr)) Hscan)
        as Hle.
      rewrite (filter_scanKey (breakpoints b)) in Hle |- *. lia.
    + apply (length_by_key_lt scanKey _ _ (inr func));
        [intros x Hx; by eapply recreateBreakpoints_keyed|done|].
      pose proof (recreateBreakpoints_count _ _ (inr func) Hscan) as Hle.
      rewrite (filter_scanKey (breakpoints b)) in Hle |- *. lia.
Qed.

(** ** Loading the map *)

Section Load.
Lemma checkBranches_eq (branches : list Branch) (recreated : bool) :
  checkBranches branches recreated
  = ((λ b, (checkBranch b).1) <$> branches,
     existsb (λ b, (checkBranch b).2) branches || recreated).
Proof.
  revert recreated. induction branches as [|b rest IH]; intros recreated.
  - reflexivity.
  - simpl. destruct (checkBranch b) as [b' changed]. rewrite IH. simpl.
    by destruct changed, (existsb _ rest), recreated.
Qed.

Lemma getWorkspaceBreakpoints_unfold (context0 : ExtensionContext) :
  let stored :=
    default (getInitialBranchBreakpoints context0)
            (workspaceState context0 !! breakpointMapKeyName) in
  getWorkspaceBreakpoints context0
  = if falsy_string (version stored)
    then (workspaceState_update breakpointMapKeyName None context0,
          ({| version := Some "0.0.2"; branch := [] |}, false))
    else (context0,
          ({| version := version stored;
              branch := (checkBranches (branch stored) false).1 |},
           (checkBranches (branch stored) false).2)).
Proof.
  intros stored. unfold getWorkspaceBreakpoints.
  change (match workspaceState context0 !! breakpointMapKeyName with
          | Some stored => stored
          | None => getInitialBranchBreakpoints context0
          end) with stored.
  destruct (falsy_string (version stored)); simpl; [done|].
  by destruct (checkBranches (branch stored) false).
Qed.

(** A load from a store that holds a map with a version whose branches
    the check leaves alone returns that map. *)
Lemma getWorkspaceBreakpoints_settled (context0 : ExtensionContext)
    (stored : BranchBreakpoints) :
  workspaceState context0 !! breakpointMapKeyName = Some stored →
  falsy_string (version stored) = false →
  checkBranches (branch stored) false = (branch stored, false) →
  getWorkspaceBreakpoints context0 = (context0, (stored, false)).
Proof.
  intros Hstored Hversion Hbranches.
  rewrite getWorkspaceBreakpoints_unfold, Hstored. simpl.
  rewrite Hversion, Hbranches. by destruct stored.
Qed.

Lemma setBreakpoints_Throw_live `{HostAPI} (ext ext' : Extension) ex :
  setBreakpoints ext = (ext', Throw ex) →
  debug_breakpoints ext' = debug_breakpoints ext.
Proof.
  unfold setBreakpoints, try_finally, setBreakpoints_body. simpl.
  destruct (breakpoints <$> Array_find _ _) as [[|s0 stored]|]; simpl;
    try done.
  match goal with
  | |- context [match ?computed with Ok _ => _ | Throw _ => _ end] =>
      destruct computed as [[toAdd toRemove]|ex0]
  end; [done|].
  by intros [= <- _].
Qed.
End Load.

Section LoadVersioned.
Lemma checkBranch_flag (b : Branch) :
  (checkBranch b).2 = true ↔
  forallb scannable (breakpoints b) = true
  ∧ ((∃ path rangeStr,
        (1 < length (locationBreakpointsAt path rangeStr (breakpoints b)))%nat)
     ∨ (∃ func,
          (1 < length (functionBreakpointsAt func (breakpoints b)))%nat)).
Proof.
  destruct (checkBranch_cases b)
    as [[Hnot ->]|[(maps & Hscan & Hneeds & ->)|(maps & Hscan & Hneeds & ->)]];
    simpl.
  - split; [done|]. intros [Hscannable _]. congruence.
  - split; [done|]. intros [_ Hdup].
    apply (needsRecreate_duplicates _ _ Hscan) in Hdup. congruence.
  - split; [|done]. intros _. split.
    + by eapply scanBreakpoints_Ok_scannable.
    + by apply (needsRecreate_duplicates _ _ Hscan).
Qed.

Lemma checkBranch_from (b : Branch) :
  name (checkBranch b).1 = name b
  ∧ ∀ x, x ∈ breakpoints (checkBranch b).1 → x ∈ breakpoints b.
Proof.
  destruct (checkBranch_cases b)
    as [[Hnot ->]|[(maps & Hscan & Hneeds & ->)|(maps & Hscan & Hneeds & ->)]];
    simpl; [done|done|]. split; [done|]. intros x Hx.
  apply (recreateBreakpoints_elem_of _ _ _ Hscan) in Hx
    as [(path & rangeStr & Hlast)|(func & Hfirst)].
  - apply last_Some in Hlast as [l' Hl'].
    assert (Hin : x ∈ locationBreakpointsAt path rangeStr (breakpoints b))
      by (rewrite Hl', elem_of_app; right; by left).
    by apply list_elem_of_filter in Hin as [_ Hin].
  - assert (Hin : x ∈ functionBreakpointsAt func (breakpoints b)).
    { destruct (functionBreakpointsAt func (breakpoints b)) as [|y ys];
        [done|].
      injection Hfirst as ->. by left. }
    by apply list_elem_of_filter in Hin as [_ Hin].
Qed.
End LoadVersioned.

(** X23.  A load from a store that holds a map with a version never
    writes the store and never invents anything: the context, the version
    and the names of the branches, in their order, come back as they are
    stored, and every breakpoint of a returned branch is a breakpoint of
    the stored branch at the same place.  [recreated] is returned as
    [true] exactly when some stored branch passes the scan and holds two
    breakpoints under one location key or one function name. *)
Theorem getWorkspaceBreakpoints_recreated_iff (context0 : ExtensionContext)
    (stored : BranchBreakpoints) :
  workspaceState context0 !! breakpointMapKeyName = Some stored →
  falsy_string (version stored) = false →
  let loaded := (getWorkspaceBreakpoints context0).2.1 in
  (getWorkspaceBreakpoints context0).1 = context0
  ∧ version loaded = version stored
  ∧ Forall2 (λ b' b, name b' = name b
                     ∧ ∀ x, x ∈ breakpoints b' → x ∈ breakpoints b)
            (branch loaded) (branch stored)
  ∧ ((getWorkspaceBreakpoints context0).2.2 = true ↔
     ∃ b, b ∈ branch stored
          ∧ forallb scannable (breakpoints b) = true
          ∧ ((∃ path rangeStr,
                (1 < length (locationBreakpointsAt path rangeStr
                               (breakpoints b)))%nat)
             ∨ (∃ func,
                  (1 < length (functionBreakpointsAt func
                                 (breakpoints b)))%nat))).
Proof.
  intros Hstored Hversion. cbv zeta.
  rewrite getWorkspaceBreakpoints_unfold, Hstored. simpl.
  rewrite Hversion, checkBranches_eq. simpl.
  split; [done|]. split; [done|]. split.
  - apply Forall2_fmap_l, Forall_Forall2_diag, Forall_forall.
    intros b _. apply checkBranch_from.
  - rewrite orb_false_r, existsb_exists. split.
    + intros (b & Hb%list_elem_of_In & Hflag). exists b. split; [done|].
      by apply checkBranch_flag.
    + intros (b & Hb & Hdup). exists b. split; [by apply list_elem_of_In|].
      by apply checkBranch_flag.
Qed.

Lemma getWorkspaceBreakpoints_recreated_iff_witness :
  let stored :=
    Samples.mapOf
      [{| name := "main"; breakpoints := [Samples.storedA] |};
       {| name := "dev";
          breakpoints := [Samples.storedF; Samples.storedB;
                          Samples.storedF] |}] in
  let context0 :=
    workspaceState_update breakpointMapKeyName (Some stored)
                          Samples.emptyContext in
  let loaded := (getWorkspaceBreakpoints context0).2.1 in
  (getWorkspaceBreakpoints context0).1 = context0
  ∧ version loaded = version stored
  ∧ Forall2 (λ b' b, name b' = name b
                     ∧ ∀ x, x ∈ breakpoints b' → x ∈ breakpoints b)
            (branch loaded) (branch stored)
  ∧ ((getWorkspaceBreakpoints context0).2.2 = true ↔
     ∃ b, b ∈ branch stored
          ∧ forallb scannable (breakpoints b) = true
          ∧ ((∃ path rangeStr,
                (1 < length (locationBreakpointsAt path rangeStr
                               (breakpoints b)))%nat)
             ∨ (∃ func,
                  (1 < length (functionBreakpointsAt func
                                 (breakpoints b)))%nat))).
Proof.
  intros stored context0.
  apply (getWorkspaceBreakpoints_recreated_iff context0 stored);
    reflexivity.
Defined.

(** X24.  An activation that completes leaves a store that needs no
    further repair: loading again from the context it leaves reports that
    nothing was recreated and returns the branches the extension holds.
    An activation that fails, which it can only in [setBreakpoints], has
    not written the rebuilt map to the store and has left the live
    breakpoints as they were. *)
Theorem activate_then_load `{HostAPI} (ctx : ExtensionContext)
    (headFile : option string) (live : list Breakpoint) :
  let ext := (activate ctx headFile live).1 in
  match (activate ctx headFile live).2 with
  | Ok _ =>
      (getWorkspaceBreakpoints (context ext)).2.2 = false
      ∧ branch (getWorkspaceBreakpoints (context ext)).2.1
        = branch (branchBreakpoints ext)
  | Throw _ =>
      context ext = (getWorkspaceBreakpoints ctx).1
      ∧ debug_breakpoints ext = live
  end.
Proof.
  unfold activate.
  pose proof (getWorkspaceBreakpoints_unfold ctx) as Hload.
  pose proof (getWorkspaceBreakpoints_loaded ctx)
    as (found & Hversion & Hloaded).
  cbv zeta in Hload.
  set (stored := default (getInitialBranchBreakpoints ctx)
                         (workspaceState ctx !! breakpointMapKeyName)) in *.
  revert Hload Hloaded.
  destruct (getWorkspaceBreakpoints ctx) as [ctx' [loaded recreated]].
  intros Hload Hloaded. simpl in Hloaded.
  assert (Hsettled : falsy_string (version loaded) = false
                     ∧ checkBranches (branch loaded) false
                       = (branch loaded, false)).
  { rewrite Hloaded. simpl. split; [done|apply checkBranches_idempotent]. }
  destruct Hsettled as [Hversion' Hbranches].
  destruct recreated.
  - set (ext0 := {| context := ctx'; branchBreakpoints := loaded;
                    isBranchLocked := false;
                    head := default "__noBranchName" headFile;
                    debug_breakpoints := live |}).
    pose proof (setBreakpoints_fields ext0) as (Hmap & _ & Hcontext & _).
    destruct (setBreakpoints ext0) as [ext1 [[]|ex]] eqn:Hset; simpl in *.
    + rewrite Hmap.
      rewrite (getWorkspaceBreakpoints_settled _ loaded);
        [done|apply lookup_insert_eq|done|done].
    + split; [done|]. by apply (setBreakpoints_Throw_live ext0 ext1 ex).
  - simpl. destruct (falsy_string (version stored)) eqn:Hfalsy.
    + injection Hload as -> -> . rewrite getWorkspaceBreakpoints_unfold.
      simpl. rewrite lookup_delete_eq. simpl.
      by destruct (bool_decide _).
    + injection Hload as -> Hl Hr.
      rewrite getWorkspaceBreakpoints_unfold. fold stored.
      rewrite Hfalsy. simpl. rewrite <- Hr. split; [done|].
      by rewrite Hl.
Qed.

(** ** The loop over the added breakpoints *)

Section AddedLoop.
Lemma addedBreakpoint_cases (b : Breakpoint) (stored : list Breakpoint) :
  instantiated b = true →
  forallb hostObject stored = true →
  ((∃ x, x ∈ stored ∧ areBreakpointsEqual b x = Ok true)
   ∧ addedBreakpoint b stored = (stored, Ok ()))
  ∨ ((∀ x, x ∈ stored → areBreakpointsEqual b x = Ok false)
     ∧ addedBreakpoint b stored = (stored ++ [b], Ok ())).
Proof.
  intros Hb Hstored.
  destruct (Array_findM_total (λ x, areBreakpointsEqual b x) stored)
    as [[x|] Hfound].
  { intros x Hx. apply areBreakpointsEqual_host_total.
    - by apply instantiated_hostObject.
    - rewrite forallb_forall in Hstored. by apply Hstored, list_elem_of_In. }
  - left. unfold addedBreakpoint. rewrite Hfound. split; [|done].
    exists x. by apply Array_findM_Some in Hfound.
  - right. unfold addedBreakpoint. rewrite Hfound. split; [|done].
    by apply Array_findM_None.
Qed.

Lemma pairwiseDistinct_snoc (stored : list Breakpoint) (b : Breakpoint) :
  pairwiseDistinct stored →
  (∀ x, x ∈ stored → areBreakpointsEqual b x = Ok false) →
  pairwiseDistinct (stored ++ [b]).
Proof.
  intros Hstored Hb i j x y Hi Hj Hij.
  apply lookup_app_Some in Hi as [Hi|[Hlen Hi]];
    apply lookup_app_Some in Hj as [Hj|[Hlen' Hj]].
  - by eapply Hstored.
  - apply list_lookup_singleton_Some in Hj as [_ <-].
    rewrite areBreakpointsEqual_comm. apply Hb.
    by eapply list_elem_of_lookup_2.
  - apply list_lookup_singleton_Some in Hi as [_ <-].
    apply Hb. by eapply list_elem_of_lookup_2.
  - apply list_lookup_singleton_Some in Hi as [Hi _].
    apply list_lookup_singleton_Some in Hj as [Hj _]. lia.
Qed.
End AddedLoop.

(** X25.  The loop over the added breakpoints only appends, and it keeps
    a list without duplicates free of them.  On a stored list of host
    objects and added breakpoints that are instances of the host classes
    the loop returns; the stored list is a prefix of the result; what is
    appended comes from the event; every added breakpoint has an equal
    one in the result; and if no two stored breakpoints were equal, no
    two are afterwards. *)
Theorem addedBreakpoints_invariant (addedList stored : list Breakpoint) :
  forallb instantiated addedList = true →
  forallb hostObject stored = true →
  ∃ more,
    forOf addedBreakpoint addedList stored = (stored ++ more, Ok ())
    ∧ (∀ b, b ∈ addedList →
            ∃ x, x ∈ stored ++ more ∧ areBreakpointsEqual b x = Ok true)
    ∧ (∀ x, x ∈ more → x ∈ addedList)
    ∧ (pairwiseDistinct stored → pairwiseDistinct (stored ++ more)).
Proof.
  revert stored. induction addedList as [|b rest IH]; intros stored Hadded
    Hstored.
  - exists []. rewrite app_nil_r. split; [done|].
    split; [by intros b ?%elem_of_nil|]. split; [|done].
    by intros x ?%elem_of_nil.
  - simpl in Hadded. apply andb_true_iff in Hadded as [Hb Hrest].
    destruct (addedBreakpoint_cases b stored Hb Hstored)
      as [[(x & Hx & Hbx) Hstep]|[Hnone Hstep]].
    + destruct (IH stored Hrest Hstored)
        as (more & Hloop & Hequal & Hfrom & Hdistinct).
      exists more. simpl. rewrite Hstep. split; [done|].
      split; [|split; [|done]].
      * intros c [->|Hc]%elem_of_cons; [|by apply Hequal].
        exists x. split; [|done]. rewrite elem_of_app. by left.
      * intros y Hy. right. by apply Hfrom.
    + assert (Hstored' : forallb hostObject (stored ++ [b]) = true).
      { rewrite forallb_app, Hstored. simpl.
        by rewrite instantiated_hostObject. }
      destruct (IH (stored ++ [b]) Hrest Hstored')
        as (more & Hloop & Hequal & Hfrom & Hdistinct).
      exists (b :: more). simpl. rewrite Hstep.
      rewrite <- app_assoc in Hloop, Hequal, Hdistinct. simpl in *.
      split; [done|]. split; [|split].
      * intros c [->|Hc]%elem_of_cons; [|by apply Hequal].
        exists b. split.
        -- rewrite elem_of_app. right. by left.
        -- by apply areBreakpointsEqual_instantiated_refl.
      * intros y [->|Hy]%elem_of_cons; [by left|]. right. by apply Hfrom.
      * intros Hpairs. apply Hdistinct.
        by apply pairwiseDistinct_snoc.
Qed.

Lemma addedBreakpoints_invariant_witness :
  ∃ more,
    forOf addedBreakpoint [Samples.liveA_off; Samples.liveB; Samples.liveB]
          [Samples.liveA; Samples.liveF]
    = ([Samples.liveA; Samples.liveF] ++ more, Ok ())
    ∧ (∀ b, b ∈ [Samples.liveA_off; Samples.liveB; Samples.liveB] →
            ∃ x, x ∈ [Samples.liveA; Samples.liveF] ++ more
                 ∧ areBreakpointsEqual b x = Ok true)
    ∧ (∀ x, x ∈ more →
            x ∈ [Samples.liveA_off; Samples.liveB; Samples.liveB])
    ∧ (pairwiseDistinct [Samples.liveA; Samples.liveF] →
       pairwiseDistinct ([Samples.liveA; Samples.liveF] ++ more)).
Proof.
  apply (addedBreakpoints_invariant
           [Samples.liveA_off; Samples.liveB; Samples.liveB]
           [Samples.liveA; Samples.liveF]); reflexivity.
Defined.

(** X26.  Adding a breakpoint and removing it again gives back the stored
    list: when an instance of a host class has no equal stored
    breakpoint, the body of the added loop appends it, and the body of
    the removed loop, run on the result for the same breakpoint, deletes
    exactly that entry. *)
Theorem added_then_removed (b : Breakpoint) (stored : list Breakpoint) :
  instantiated b = true →
  (∀ x, x ∈ stored → areBreakpointsEqual b x = Ok false) →
  addedBreakpoint b stored = (stored ++ [b], Ok ())
  ∧ removedBreakpoint b (stored ++ [b]) = (stored, Ok ()).
Proof.
  intros Hb Hnone. split.
  - unfold addedBreakpoint.
    by rewrite (proj2 (Array_findM_None (λ x, areBreakpointsEqual b x)
                                          stored) Hnone).
  - unfold removedBreakpoint.
    rewrite (Array_findIndexM_first (λ y, areBreakpointsEqual y b)).
    + by rewrite Array_splice1_middle, app_nil_r.
    + intros y Hy. rewrite areBreakpointsEqual_comm. by apply Hnone.
    + by apply areBreakpointsEqual_instantiated_refl.
Qed.

Lemma added_then_removed_witness :
  addedBreakpoint Samples.liveC [Samples.liveA; Samples.liveF]
  = ([Samples.liveA; Samples.liveF] ++ [Samples.liveC], Ok ())
  ∧ removedBreakpoint Samples.liveC
      ([Samples.liveA; Samples.liveF] ++ [Samples.liveC])
    = ([Samples.liveA; Samples.liveF], Ok ()).
Proof.
  apply (added_then_removed Samples.liveC [Samples.liveA; Samples.liveF]).
  - reflexivity.
  - intros x Hx. apply list_elem_of_In in Hx. simpl in Hx.
    destruct Hx as [<-|[<-|[]]]; reflexivity.
Defined.

(** X27.  An event that reports no breakpoint at all still returns a map
    when the lock is off: the map it was given if that has a branch for
    the head, and otherwise that map with an empty branch for the head
    appended, which the listener then writes to the store. *)
Theorem getUpdatedBreakpoints_empty_event
    (branchBreakpoints0 : BranchBreakpoints) (headName : string) :
  getUpdatedBreakpoints {| added := []; removed := []; changed := [] |}
                        false branchBreakpoints0 headName
  = (branchBreakpoints0,
     Ok (Some
           (if bool_decide (headName ∈ name <$> branch branchBreakpoints0)
            then branchBreakpoints0
            else {| version := version branchBreakpoints0;
                    branch := branch branchBreakpoints0
                              ++ [{| name := headName;
                                     breakpoints := [] |}] |}))).
Proof.
  unfold getUpdatedBreakpoints.
  set (p := λ x : Branch, bool_decide (name x = headName)).
  destruct (Array_findIndex_spec p (branch branchBreakpoints0))
    as [(Hindex & _ & Hall)|(Hindex & found & Hfound & _ & Hname)].
  - rewrite Hindex. simpl.
    rewrite bool_decide_false; [done|].
    intros (other & Heq & Hin)%list_elem_of_fmap.
    apply Hall in Hin. unfold p in Hin.
    by apply bool_decide_eq_false in Hin.
  - apply bool_decide_eq_true in Hname.
    rewrite (bool_decide_true (_ ≠ -1)) by lia.
    rewrite (bool_decide_false (_ = -1)) by lia.
    rewrite Hfound. simpl.
    rewrite bool_decide_true.
    + rewrite list_insert_id by (by destruct found).
      by destruct branchBreakpoints0.
    + apply list_elem_of_fmap. exists found. split; [done|].
      by eapply list_elem_of_lookup_2.
Qed.
